(** * World of Pirates: the map processor [tools/process_map.py]

    A shallow embedding of the three pure stages of the tool,

      [clean_map]               image  -> boolean land mask
      [generate_shallow_water]  mask   -> terrain grid (0 water, 1 shallow, 2 land)
      [terrain_to_image]        grid   -> RGB buffer

    and the properties the specification states about them.

    Modelling conventions.
    - A two-dimensional numpy array is a list of rows; numpy arrays are
      rectangular by construction, which the predicate [rect] records.
    - Python integers are [Z].  An integer index into an axis of length [n]
      follows numpy: [0 <= i < n] selects position [i], [-n <= i < 0] wraps
      around, anything else raises [IndexError] (here: [None]).
    - Functions that can raise return [option]; the loops of
      [generate_shallow_water] thread their mutated variable ([terrain], then
      [min_dist]) through [for_each].
    - Floating point values are binary64 and round to nearest, ties to even.
      A distance [np.sqrt n] is kept as the integer [n] it is the root of
      (type [distance]); the rounding of the root shows where it is compared
      with the radius ([dist_le_int], [float64_slack]).  The conversion of an
      integer to binary64 is [float64_of_int].  Each definition says on which
      integers it is the binary64 operation. *)

From Stdlib Require Import ZArith QArith Reals Lia.
From stdpp Require Import base option list numbers.

Local Open Scope Z_scope.

(** ** numpy arrays *)

(** A two-dimensional array: the list of its rows. *)
Abbreviation grid A := (list (list A)).

Module Np.

(** [a.shape] of a two-dimensional array.  An array without rows is given
    width 0; it has no cell whatever its width. *)
Definition shape {A} (a : grid A) : Z * Z :=
  (Z.of_nat (length a), Z.of_nat (from_option length 0%nat (head a))).

Global Arguments shape : simpl never.

(** Every row has the width reported by [shape]. *)
Definition rect {A} (a : grid A) : Prop :=
  Forall (λ row, Z.of_nat (length row) = (shape a).2) a.

(** Integer index into an axis of length [n]. *)
Definition index (n : nat) (i : Z) : option nat :=
  if bool_decide (0 ≤ i < Z.of_nat n) then Some (Z.to_nat i)
  else if bool_decide (- Z.of_nat n ≤ i < 0) then Some (Z.to_nat (i + Z.of_nat n))
  else None.

(** [a[y, x]] *)
Definition getitem {A} (a : grid A) (y x : Z) : option A :=
  i ← index (length a) y;
  row ← a !! i;
  j ← index (length row) x;
  row !! j.

(** [a[y, x] = v] *)
Definition setitem {A} (a : grid A) (y x : Z) (v : A) : option (grid A) :=
  i ← index (length a) y;
  row ← a !! i;
  j ← index (length row) x;
  Some (<[i := <[j := v]> row]> a).

(** [np.zeros((height, width), dtype)] with [zero] the zero of the dtype. *)
Definition zeros {A} (zero : A) (height width : Z) : grid A :=
  replicate (Z.to_nat height) (replicate (Z.to_nat width) zero).

(** [a[mask] = v] for a boolean [mask]: numpy refuses a mask whose shape
    differs from the array's. *)
Definition setmask {A} (a : grid A) (mask : grid bool) (v : A) : option (grid A) :=
  if bool_decide (length <$> a = length <$> mask)
  then Some (zip_with (zip_with (λ old (b : bool), if b then v else old)) a mask)
  else None.

(** [a == v], elementwise. *)
Definition eq_scalar (a : grid Z) (v : Z) : grid bool :=
  fmap (M := list) (fmap (M := list) (λ c, bool_decide (c = v))) a.

(** The cell in row [i], column [j], counted from the top-left corner. *)
Definition cell {A} (a : grid A) (i j : nat) : option A :=
  a !! i ≫= (.!! j).

End Np.

(** [range(start, stop)] *)
Definition range (start stop : Z) : list Z := seqZ start (stop - start).

(** [for i in l: s = body i s], where the body may raise. *)
Fixpoint for_each {S : Type} (l : list Z) (body : Z → S → option S) (s : S)
  : option S :=
  match l with
  | [] => Some s
  | i :: l' => s' ← body i s; for_each l' body s'
  end.

(** ** Distances: [float('inf')] or the square root of an integer *)

Inductive distance : Type :=
| inf : distance
| sqrt_of (n : Z) : distance.

Definition np_sqrt (n : Z) : distance := sqrt_of n.

(** [dist < min_dist].  Two distinct integers whose roots round to the same
    binary64 value compare as different here; [py_min] then keeps the
    smaller integer, whose rounded root is the same value. *)
Definition dist_lt (a b : distance) : bool :=
  match a, b with
  | inf, _ => false
  | sqrt_of _, inf => true
  | sqrt_of n, sqrt_of m => bool_decide (n < m)
  end.

(** Python's [min(a, b)]: [b] if [b < a], else [a]. *)
Definition py_min (a b : distance) : distance :=
  if dist_lt b a then b else a.

(** What rounding adds to [k * k]: the rounded root of [n] is at most [k]
    when [sqrt n < k + ulp k / 2], with [ulp k = 2 ^ (log2 k - 52)] the gap
    between [k] and the next binary64 value; for an integer [n] that is
    [n <= k * k + k * ulp k], rounded down.  It is 0 for [k < 2^26] and 1
    at [k = 2^26]. *)
Definition float64_slack (k : Z) : Z := k / 2 ^ (52 - Z.log2 k).

(** The largest [n] whose rounded root is at most [k]. *)
Definition float64_reach (k : Z) : Z := k * k + float64_slack k.

(** [d <= k] for an integer [k]: the binary64 comparison of the rounded root
    with [k], for [0 <= k < 2^53] and [n < 2^53], which binary64 holds
    exactly.  From [2^53] on the slack is 0 and the comparison is that of
    the integers. *)
Definition dist_le_int (d : distance) (k : Z) : bool :=
  match d with
  | inf => false
  | sqrt_of n => bool_decide (0 ≤ k) && bool_decide (n ≤ float64_reach k)
  end.

(** The Euclidean length of an offset, as a real number. *)
Definition euclid (dy dx : Z) : R := sqrt (IZR (dx * dx + dy * dy)).

(** ** Terrain codes and colours *)

Definition WATER : Z := 0.
Definition SHALLOW : Z := 1.
Definition LAND : Z := 2.

Definition rgb : Type := Z * Z * Z.
Definition black : rgb := (0, 0, 0).
Definition cyan : rgb := (0, 255, 255).
Definition white : rgb := (255, 255, 255).

(** ** [clean_map] *)

(** The input of [clean_map]: an array of shape (h, w), or of shape
    (h, w, c) whose innermost lists are the channels of a pixel. *)
Inductive image : Type :=
| Gray (px : grid Z)
| Multi (px : grid (list Z)).

Definition sumZ (l : list Z) : Z := foldr Z.add 0 l.

(** The binary64 value nearest to the integer [a >= 0], ties to even: [a]
    itself below [2^53]; from there on the nearest multiple of [2^e], where
    [e = log2 a - 52] is the weight of the last of the 53 bits kept.
    (Overflow, from [2^1024] on, is not modelled.) *)
Definition float64_of_nat (a : Z) : Z :=
  let e := Z.log2 a - 52 in
  if bool_decide (e ≤ 0) then a
  else
    let q := a / 2 ^ e in
    let r := a mod 2 ^ e in
    let half := 2 ^ (e - 1) in
    let up := bool_decide (half < r) || (bool_decide (r = half) && Z.odd q) in
    (if up then q + 1 else q) * 2 ^ e.

(** The conversion of an integer to float64. *)
Definition float64_of_int (z : Z) : Z := Z.sgn z * float64_of_nat (Z.abs z).

(** [np.mean] along the channel axis: the values are converted to float64,
    added up and divided by their number; [None] is the [nan] numpy returns
    for an empty axis.  The conversion is [float64_of_int].  The sum and the
    quotient are the exact ones: float64 adds integers without rounding as
    long as every partial sum is a value it holds, in particular while the
    sums stay within [2^53] ([exact_sum]), and the rounding of the quotient
    then changes no comparison with an integer threshold below [2^53].
    The theorems that need the sum to be exact assume [exact_sum]. *)
Definition np_mean (channels : list Z) : option Q :=
  match channels with
  | [] => None
  | _ => Some (Qmake (sumZ (float64_of_int <$> channels))
                 (Pos.of_nat (length channels)))
  end.

(** [grayscale > land_threshold] on a float64 array: the threshold is
    converted to float64; every comparison with [nan] is false. *)
Definition gt_threshold (brightness : option Q) (land_threshold : Z) : bool :=
  match brightness with
  | None => false
  | Some b => negb (Qle_bool b (inject_Z (float64_of_int land_threshold)))
  end.

Definition clean_map (image_array : image) (land_threshold : Z) : grid bool :=
  match image_array with
  | Multi px =>
      let grayscale := fmap (M := list) (fmap (M := list) np_mean) px in
      fmap (M := list) (fmap (M := list) (λ g, gt_threshold g land_threshold)) grayscale
  | Gray px =>
      let grayscale := px in
      fmap (M := list) (fmap (M := list) (λ g, bool_decide (land_threshold < g))) grayscale
  end.

(** ** [generate_shallow_water] *)

(** Lines 71-80: the scan of the square window around [(y, x)]. *)
Definition scan_window (land_mask : grid bool) (height width buffer_tiles : Z)
    (y x : Z) : option distance :=
  for_each (range (- buffer_tiles) (buffer_tiles + 1)) (λ dy min_dist,
    for_each (range (- buffer_tiles) (buffer_tiles + 1)) (λ dx min_dist,
      let ny := y + dy in
      let nx := x + dx in
      if bool_decide (0 ≤ ny < height) && bool_decide (0 ≤ nx < width) then
        is_land ← Np.getitem land_mask ny nx;
        if is_land : bool then
          let dist := np_sqrt (dx * dx + dy * dy) in
          Some (py_min min_dist dist)
        else Some min_dist
      else Some min_dist) min_dist) inf.

(** Lines 69-83: the body of the loop over the cells. *)
Definition visit (land_mask : grid bool) (height width buffer_tiles : Z)
    (y x : Z) (terrain : grid Z) : option (grid Z) :=
  t ← Np.getitem terrain y x;
  if bool_decide (t = 0) then
    min_dist ← scan_window land_mask height width buffer_tiles y x;
    if dist_le_int min_dist buffer_tiles
    then Np.setitem terrain y x 1
    else Some terrain
  else Some terrain.

Definition generate_shallow_water (land_mask : grid bool) (buffer_tiles : Z)
  : option (grid Z) :=
  let '(height, width) := Np.shape land_mask in
  let terrain := Np.zeros 0 height width in
  terrain ← Np.setmask terrain land_mask 2;
  for_each (range 0 height) (λ y terrain,
    for_each (range 0 width) (λ x terrain,
      visit land_mask height width buffer_tiles y x terrain) terrain) terrain.

(** ** [terrain_to_image] *)

(** [Image.fromarray] wraps the buffer; the image is the buffer. *)
Definition terrain_to_image (terrain : grid Z) : option (grid rgb) :=
  let '(height, width) := Np.shape terrain in
  let rgb := Np.zeros (0, 0, 0) height width in
  rgb ← Np.setmask rgb (Np.eq_scalar terrain 0) (0, 0, 0);
  rgb ← Np.setmask rgb (Np.eq_scalar terrain 1) (0, 255, 255);
  rgb ← Np.setmask rgb (Np.eq_scalar terrain 2) (255, 255, 255);
  Some rgb.

(** ** [process_map] *)

(** [np.sum] of a boolean array: the number of its True cells. *)
Definition np_sum (mask : grid bool) : Z :=
  sumZ ((λ row, sumZ ((λ b : bool, if b then 1 else 0) <$> row)) <$> mask).

(** [a.size]: the product of the dimensions. *)
Definition np_size {A} (a : grid A) : Z := (Np.shape a).1 * (Np.shape a).2.

(** What [process_map] computes between reading the input and saving the
    output. *)
Record report : Type := Report {
  land_pixels : Z;
  total_pixels : Z;
  water_count : Z;
  shallow_count : Z;
  land_count : Z;
  output_img : grid rgb
}.

(** Lines 131-153, from the pixel array [np.array(img)] to the image handed
    to [save].  The [print] calls only display these values; [tile_size] is
    printed and never used.  An exception raised on the way ([None]) leaves
    the function before anything is saved. *)
Definition process_map (img_array : image) (tile_size land_threshold shallow_buffer : Z)
  : option report :=
  let land_mask := clean_map img_array land_threshold in
  let land_pixels := np_sum land_mask in
  let total_pixels := np_size land_mask in
  terrain ← generate_shallow_water land_mask shallow_buffer;
  let water_count := np_sum (Np.eq_scalar terrain 0) in
  let shallow_count := np_sum (Np.eq_scalar terrain 1) in
  let land_count := np_sum (Np.eq_scalar terrain 2) in
  output_img ← terrain_to_image terrain;
  Some (Report land_pixels total_pixels water_count shallow_count land_count
          output_img).

(** ** Definitions used to state the properties *)

(** Offset [(dy, dx)] from [(y, x)] lands on a land cell of the grid whose
    distance compares as at most [k]. *)
Definition hit (land_mask : grid bool) (y x dy dx k : Z) : Prop :=
  0 ≤ y + dy < (Np.shape land_mask).1 ∧ 0 ≤ x + dx < (Np.shape land_mask).2 ∧
  Np.cell land_mask (Z.to_nat (y + dy)) (Z.to_nat (x + dx)) = Some true ∧
  0 ≤ k ∧ dx * dx + dy * dy ≤ float64_reach k.

(** The grid before the loops: land copied from the mask, water elsewhere. *)
Definition initial (land_mask : grid bool) (i j : nat) : option Z :=
  (λ b : bool, if b then 2 else 0) <$> Np.cell land_mask i j.

(** The value the loops leave in cell [(i, j)]: land stays, a water cell is
    decided by the scan of its own window. *)
Definition classify (land_mask : grid bool) (buffer_tiles : Z) (i j : nat)
  : option Z :=
  b ← Np.cell land_mask i j;
  if b : bool then Some 2
  else
    d ← scan_window land_mask (Np.shape land_mask).1 (Np.shape land_mask).2
          buffer_tiles (Z.of_nat i) (Z.of_nat j);
    Some (if dist_le_int d buffer_tiles then 1 else 0).

(** Invariant of both loops: the shape is the mask's and every cell holds
    either its initial or its final value. *)
Definition pass_inv (land_mask : grid bool) (buffer_tiles : Z)
    (terrain : grid Z) : Prop :=
  length <$> terrain = length <$> land_mask ∧
  ∀ i j, Np.cell terrain i j = initial land_mask i j ∨
         Np.cell terrain i j = classify land_mask buffer_tiles i j.

(** Cells that reached their final value keep it. *)
Definition pass_frame (land_mask : grid bool) (buffer_tiles : Z)
    (terrain terrain' : grid Z) : Prop :=
  ∀ i j, Np.cell terrain i j = classify land_mask buffer_tiles i j →
         Np.cell terrain' i j = classify land_mask buffer_tiles i j.

(** Some land cell of the mask lies at a squared distance from [(i, j)]
    that [dist_le_int] lets pass for [k]. *)
Definition land_within (land_mask : grid bool) (k : Z) (i j : nat) : Prop :=
  ∃ ly lx : nat, Np.cell land_mask ly lx = Some true ∧
    (Z.of_nat lx - Z.of_nat j) * (Z.of_nat lx - Z.of_nat j) +
    (Z.of_nat ly - Z.of_nat i) * (Z.of_nat ly - Z.of_nat i) ≤ float64_reach k.

(** The colour a cell value ends up with after the three assignments. *)
Definition colour_of (c : Z) : rgb :=
  if bool_decide (c = 2) then white
  else if bool_decide (c = 1) then cyan
  else black.

(** The row lengths of the pixel array, whatever its number of axes. *)
Definition image_row_lengths (image_array : image) : list nat :=
  match image_array with
  | Gray px => length <$> px
  | Multi px => length <$> px
  end.


(** The channel values are small enough for float64 to add them up without
    rounding, in any order. *)
Definition exact_sum (channels : list Z) : Prop :=
  sumZ (Z.abs <$> channels) < 2 ^ 53.

(** Every value of the array lies in [0, 255]. *)
Definition in_byte_range (image_array : image) : Prop :=
  match image_array with
  | Gray px => ∀ i j v, Np.cell px i j = Some v → 0 ≤ v ≤ 255
  | Multi px =>
      ∀ i j channels, Np.cell px i j = Some channels →
        Forall (λ v, 0 ≤ v ≤ 255) channels
  end.

(** A multi-channel array has at least one channel per pixel. *)
Definition has_channels (image_array : image) : Prop :=
  match image_array with
  | Gray _ => True
  | Multi px => ∀ i j channels, Np.cell px i j = Some channels → channels ≠ []
  end.

(** The pixel array is rectangular in its two leading axes. *)
Definition rect_image (image_array : image) : Prop :=
  match image_array with
  | Gray px => Np.rect px
  | Multi px => Np.rect px
  end.

(** The two masks have the same shape and the second has land wherever the
    first has. *)
Definition mask_le (m1 m2 : grid bool) : Prop :=
  length <$> m1 = length <$> m2 ∧
  ∀ i j, Np.cell m1 i j = Some true → Np.cell m2 i j = Some true.

(** Every cell of the grid is one of the three terrain codes. *)
Definition terrain_codes (terrain : grid Z) : Prop :=
  ∀ i j c, Np.cell terrain i j = Some c → c = WATER ∨ c = SHALLOW ∨ c = LAND.

(** [np.logical_or] of two masks, cell by cell. *)
Definition mask_or (m1 m2 : grid bool) : grid bool :=
  zip_with (zip_with orb) m1 m2.

(** [np.flipud]: the rows in reverse order. *)
Definition flipud {A} (a : grid A) : grid A := reverse a.

(** The distance is finite and its square is at most [n]. *)
Definition dist_below (d : distance) (n : Z) : Prop :=
  match d with
  | inf => False
  | sqrt_of m => m ≤ n
  end.

(** Offset [(dy, dx)] of the window of half-width [r] around [(y, x)] lands
    on a land cell of the grid. *)
Definition land_at_offset (land_mask : grid bool) (r y x dy dx : Z) : Prop :=
  - r ≤ dy ≤ r ∧ - r ≤ dx ≤ r ∧
  0 ≤ y + dy < (Np.shape land_mask).1 ∧ 0 ≤ x + dx < (Np.shape land_mask).2 ∧
  Np.cell land_mask (Z.to_nat (y + dy)) (Z.to_nat (x + dx)) = Some true.

(** ** Sample inputs *)

Definition mask5 : grid bool :=
  [ [false; false; false; false; false];
    [false; false; false; false; false];
    [false; false; true;  false; false];
    [false; false; false; false; false];
    [false; false; false; false; false] ].

(** [np.sum(terrain == v)], the count printed by [process_map]. *)
Definition count (v : Z) (a : grid Z) : nat :=
  length (filter (λ c, c = v) (concat a)).

Definition sample_rgb : image :=
  Multi [ [[0; 0; 0]; [255; 255; 255]]; [[12; 200; 7]; [0; 255; 0]] ].

Definition mask5_far_corner : grid bool :=
  [ [false; false; false; false; false];
    [false; false; false; false; false];
    [false; false; true;  false; false];
    [false; false; false; false; false];
    [false; false; false; false; true] ].

(** Two rows of [n + 1] cells with land in the first cell only. *)
Definition wide_mask (n : nat) : grid bool :=
  [true :: replicate n false; replicate (S n) false].

Definition water3 : grid bool :=
  [ [false; false; false]; [false; false; false] ].

(** * Proofs *)

(** ** Indexing *)

Module NpFacts.
Import Np.

Lemma index_nonneg (n : nat) (i : Z) :
  0 ≤ i < Z.of_nat n → index n i = Some (Z.to_nat i).
Proof. intros Hi. unfold index. by rewrite bool_decide_eq_true_2. Qed.

Lemma shape_height {A} (a : grid A) : (shape a).1 = Z.of_nat (length a).
Proof. done. Qed.

Lemma rect_row {A} (a : grid A) (i : nat) (row : list A) :
  rect a → a !! i = Some row → Z.of_nat (length row) = (shape a).2.
Proof.
  intros Hr Hi. unfold rect in Hr. rewrite Forall_lookup in Hr. by eapply Hr.
Qed.

Lemma cell_is_Some {A} (a : grid A) (i j : nat) :
  rect a →
  is_Some (cell a i j) ↔ Z.of_nat i < (shape a).1 ∧ Z.of_nat j < (shape a).2.
Proof.
  intros Hr. unfold cell. rewrite shape_height. split.
  - intros [v Hv]. destruct (a !! i) as [row|] eqn:Hrow; [|done].
    simpl in Hv. apply lookup_lt_Some in Hv, Hrow as Hi.
    rewrite <- (rect_row a i row Hr Hrow). lia.
  - intros [Hi Hj]. destruct (lookup_lt_is_Some_2 a i) as [row Hrow]; [lia|].
    rewrite Hrow. simpl. apply lookup_lt_is_Some_2.
    pose proof (rect_row a i row Hr Hrow). lia.
Qed.

Lemma getitem_cell {A} (a : grid A) (y x : Z) :
  rect a → 0 ≤ y < (shape a).1 → 0 ≤ x < (shape a).2 →
  getitem a y x = cell a (Z.to_nat y) (Z.to_nat x) ∧ is_Some (getitem a y x).
Proof.
  intros Hr Hy Hx. rewrite shape_height in Hy.
  assert (is_Some (cell a (Z.to_nat y) (Z.to_nat x))) as Hs.
  { apply cell_is_Some; [done|]. rewrite shape_height. lia. }
  unfold getitem, cell in *. rewrite index_nonneg by done. simpl.
  destruct (a !! Z.to_nat y) as [row|] eqn:Hrow; [|by destruct Hs].
  pose proof (rect_row a _ row Hr Hrow) as Hw. rewrite <- Hw in Hx.
  cbn [mbind option_bind] in *. by rewrite index_nonneg.
Qed.

Lemma shape_lengths {A B} (a : grid A) (b : grid B) :
  length <$> a = length <$> b → shape a = shape b.
Proof.
  intros Hlen. unfold shape.
  destruct a as [|ra a], b as [|rb b]; try done.
  cbn in Hlen. injection Hlen as Hrow Hrest. cbn.
  apply (f_equal length) in Hrest. rewrite !length_fmap in Hrest. congruence.
Qed.

Lemma cell_fmap {A B} (f : A → B) (a : grid A) (i j : nat) :
  cell (fmap (M := list) (fmap (M := list) f) a) i j = f <$> cell a i j.
Proof.
  unfold cell. rewrite list_lookup_fmap.
  destruct (a !! i) as [row|]; cbn; [|done]. by rewrite list_lookup_fmap.
Qed.

Lemma lengths_fmap {A B} (f : A → B) (a : grid A) :
  length <$> fmap (M := list) (fmap (M := list) f) a = length <$> a.
Proof.
  rewrite <- list_fmap_compose.
  apply list_fmap_ext. intros _ row _. cbn. apply length_fmap.
Qed.

(** Two arrays with the same row lengths and the same cells are equal. *)
Lemma grid_ext {A} (a b : grid A) :
  length <$> a = length <$> b →
  (∀ i j, cell a i j = cell b i j) → a = b.
Proof.
  intros Hlen Hcell. apply list_eq. intros i.
  pose proof (f_equal (.!! i) Hlen) as Hi. rewrite !list_lookup_fmap in Hi.
  destruct (a !! i) as [ra|] eqn:Ha, (b !! i) as [rb|] eqn:Hb; simplify_eq/=; [|done].
  f_equal. apply list_eq. intros j.
  specialize (Hcell i j). unfold cell in Hcell. by rewrite Ha, Hb in Hcell.
Qed.

Lemma lengths_cell_is_Some {A B} (a : grid A) (b : grid B) (i j : nat) :
  length <$> a = length <$> b → is_Some (cell a i j) ↔ is_Some (cell b i j).
Proof.
  intros Hlen. pose proof (f_equal (.!! i) Hlen) as Hi.
  rewrite !list_lookup_fmap in Hi. unfold cell.
  destruct (a !! i) as [ra|] eqn:Ha, (b !! i) as [rb|] eqn:Hb; simplify_eq/=;
    [|by split; intros []].
  rewrite !lookup_lt_is_Some. by rewrite Hi.
Qed.

Lemma lengths_zeros {A B} (z : B) (a : grid A) :
  rect a → length <$> zeros z (shape a).1 (shape a).2 = length <$> a.
Proof.
  intros Hr. unfold zeros. rewrite shape_height, Nat2Z.id.
  apply list_eq. intros i. rewrite !list_lookup_fmap.
  destruct (a !! i) as [row|] eqn:Hrow; simpl.
  - rewrite lookup_replicate_2 by (by eapply lookup_lt_Some). simpl.
    rewrite length_replicate. f_equal.
    pose proof (rect_row a i row Hr Hrow) as Hw. unfold shape in Hw. simpl in *. lia.
  - apply lookup_ge_None in Hrow. by rewrite (proj1 (lookup_replicate_None _ _ _)).
Qed.

Lemma cell_zeros {A} (z : A) (h w : Z) (i j : nat) :
  Z.of_nat i < h → Z.of_nat j < w → cell (zeros z h w) i j = Some z.
Proof.
  intros Hi Hj. unfold cell, zeros.
  rewrite lookup_replicate_2 by lia. simpl. apply lookup_replicate_2. lia.
Qed.

(** What a masked assignment leaves in each cell. *)
Lemma setmask_cells {A} (a : grid A) (mask : grid bool) (v : A) :
  length <$> a = length <$> mask →
  ∃ a', setmask a mask v = Some a' ∧ length <$> a' = length <$> mask ∧
    ∀ i j, cell a' i j =
           old ← cell a i j; b ← cell mask i j; Some (if b : bool then v else old).
Proof.
  intros Hlen. unfold setmask. rewrite bool_decide_eq_true_2 by done.
  eexists; split; [done|]. split.
  - apply list_eq. intros i. pose proof (f_equal (.!! i) Hlen) as Hi.
    rewrite !list_lookup_fmap in *. rewrite lookup_zip_with.
    destruct (a !! i) as [ra|], (mask !! i) as [rm|]; simplify_eq/=; [|done].
    rewrite length_zip_with. f_equal. lia.
  - intros i j. unfold cell. rewrite lookup_zip_with.
    destruct (a !! i) as [ra|]; simpl; [|done].
    destruct (mask !! i) as [rm|]; simpl.
    + rewrite lookup_zip_with. by destruct (ra !! j), (rm !! j).
    + by destruct (ra !! j).
Qed.

Lemma setitem_cells {A} (a : grid A) (y x : Z) (v : A) :
  0 ≤ y → 0 ≤ x → is_Some (cell a (Z.to_nat y) (Z.to_nat x)) →
  ∃ a', setitem a y x v = Some a' ∧ length <$> a' = length <$> a ∧
    cell a' (Z.to_nat y) (Z.to_nat x) = Some v ∧
    ∀ i j, (i, j) ≠ (Z.to_nat y, Z.to_nat x) → cell a' i j = cell a i j.
Proof.
  intros Hy Hx [old Hold]. unfold cell in Hold.
  destruct (a !! Z.to_nat y) as [row|] eqn:Hrow; [|done]. simpl in Hold.
  apply lookup_lt_Some in Hrow as Hi. apply lookup_lt_Some in Hold as Hj.
  unfold setitem. rewrite index_nonneg by lia. simpl. rewrite Hrow. simpl.
  rewrite index_nonneg by lia. simpl. eexists; split; [done|].
  split; [|split].
  - apply list_eq. intros i. rewrite !list_lookup_fmap.
    destruct (decide (i = Z.to_nat y)) as [->|Hne].
    + rewrite list_lookup_insert_eq by done. rewrite Hrow. simpl.
      by rewrite length_insert.
    + by rewrite list_lookup_insert_ne.
  - unfold cell. rewrite list_lookup_insert_eq by done. simpl.
    by apply list_lookup_insert_eq.
  - intros i j Hne. unfold cell.
    destruct (decide (i = Z.to_nat y)) as [->|Hi'].
    + rewrite list_lookup_insert_eq by done. rewrite Hrow. simpl.
      apply list_lookup_insert_ne. congruence.
    + by rewrite list_lookup_insert_ne.
Qed.

End NpFacts.

(** ** Loops *)

Lemma elem_of_range (a b i : Z) : i ∈ range a b ↔ a ≤ i < b.
Proof. unfold range. rewrite elem_of_seqZ. lia. Qed.

Lemma range_empty (a b : Z) : b ≤ a → range a b = [].
Proof.
  intros Hba. unfold range, seqZ.
  by replace (Z.to_nat (b - a)) with 0%nat by lia.
Qed.

Section ForEach.
Context {S : Type}.
Implicit Types (l : list Z) (body : Z → S → option S) (s : S).

(** A loop that establishes [Dn i] at iteration [i], keeps the invariant
    [I], and only moves the state along the preorder [F], under which
    every [Dn i] is stable. *)
Lemma for_each_done (I : S → Prop) (Dn : Z → S → Prop) (F : S → S → Prop)
    l body s :
  (∀ s, F s s) →
  (∀ s1 s2 s3, F s1 s2 → F s2 s3 → F s1 s3) →
  (∀ i s s', Dn i s → F s s' → Dn i s') →
  I s →
  (∀ i s, i ∈ l → I s → ∃ s', body i s = Some s' ∧ I s' ∧ Dn i s' ∧ F s s') →
  ∃ s', for_each l body s = Some s' ∧ I s' ∧ (∀ i, i ∈ l → Dn i s') ∧ F s s'.
Proof.
  intros Hrefl Htrans Hstable. revert s.
  induction l as [|i l IH]; intros s HI Hbody.
  - exists s. repeat split; auto. intros i Hi. by apply elem_of_nil in Hi.
  - destruct (Hbody i s) as (s1 & Hs1 & HI1 & HD1 & HF1); [left | done |].
    destruct (IH s1 HI1) as (s' & Hs' & HI' & HD' & HF').
    { intros j t Hj. apply Hbody. by right. }
    exists s'. cbn [for_each]. rewrite Hs1. cbn. repeat split; eauto.
    intros j Hj. apply elem_of_cons in Hj as [->|Hj]; eauto.
Qed.
End ForEach.

(** ** The window scan *)

Lemma float64_slack_bounds (k : Z) : 0 ≤ k → 0 ≤ float64_slack k ≤ k.
Proof.
  intros Hk. unfold float64_slack.
  destruct (decide (0 ≤ 52 - Z.log2 k)) as [He|He].
  - pose proof (Z.pow_pos_nonneg 2 (52 - Z.log2 k) ltac:(lia) He) as Hp.
    split; [by apply Z.div_pos|]. apply Z.div_le_upper_bound; nia.
  - rewrite Z.pow_neg_r by lia. rewrite Z.div_0_r. lia.
Qed.

Lemma float64_slack_small (k : Z) : 0 ≤ k < 2 ^ 26 → float64_slack k = 0.
Proof.
  intros [Hk Hlt]. unfold float64_slack. apply Z.div_small. split; [done|].
  destruct (decide (k = 0)) as [->|Hne]; [done|].
  assert (Z.log2 k < 26) as Hlog by (apply Z.log2_lt_pow2; lia).
  eapply Z.lt_le_trans; [exact Hlt|].
  apply Z.pow_le_mono_r; lia.
Qed.

Lemma float64_reach_square (k : Z) : 0 ≤ k → k * k ≤ float64_reach k.
Proof. intros Hk. unfold float64_reach. pose proof (float64_slack_bounds k Hk). lia. Qed.

Lemma float64_reach_small (k : Z) : 0 ≤ k < 2 ^ 26 → float64_reach k = k * k.
Proof. intros Hk. unfold float64_reach. rewrite float64_slack_small by done. lia. Qed.

Lemma float64_reach_mono (k1 k2 : Z) :
  0 ≤ k1 → k1 ≤ k2 → float64_reach k1 ≤ float64_reach k2.
Proof.
  intros H1 H12. unfold float64_reach.
  pose proof (float64_slack_bounds k1 H1). pose proof (float64_slack_bounds k2 ltac:(lia)).
  destruct (decide (k1 = k2)) as [->|Hne]; [lia|]. nia.
Qed.

Lemma py_min_le (a b : distance) (k : Z) :
  dist_le_int (py_min a b) k = dist_le_int a k || dist_le_int b k.
Proof.
  unfold py_min. destruct a as [|n], b as [|m]; cbn; try done.
  - by rewrite orb_false_r.
  - case_bool_decide; cbn; repeat case_bool_decide; cbn; try done; lia.
Qed.

(** A running minimum: after the loop, the minimum is below [k] exactly when
    it was so before or some iteration contributed a value below [k]. *)
Lemma for_each_min (Q : Z → Z → Prop) (l : list Z)
    (body : Z → distance → option distance) (d0 : distance) :
  (∀ i d, i ∈ l → ∃ d', body i d = Some d' ∧
     ∀ k, dist_le_int d' k = true ↔ dist_le_int d k = true ∨ Q i k) →
  ∃ d', for_each l body d0 = Some d' ∧
     ∀ k, dist_le_int d' k = true ↔ dist_le_int d0 k = true ∨ ∃ i, i ∈ l ∧ Q i k.
Proof.
  revert d0. induction l as [|i l IH]; intros d0 Hbody.
  - exists d0. split; [done|]. intros k. split; [by left|].
    intros [?|(i & Hi & _)]; [done|]. by apply elem_of_nil in Hi.
  - destruct (Hbody i d0) as (d1 & Hd1 & Hle1); [left|].
    destruct (IH d1) as (d' & Hd' & Hle').
    { intros j d Hj. apply Hbody. by right. }
    exists d'. cbn [for_each]. rewrite Hd1. cbn. split; [done|].
    intros k. rewrite Hle', Hle1. split.
    + intros [[?|?]|(j & Hj & ?)]; [by left | right; exists i | right; exists j];
        (split; [|done]); [left | by right].
    + intros [?|(j & Hj & HQ)]; [by left; left|].
      apply elem_of_cons in Hj as [->|Hj]; [by left; right | right; eauto].
Qed.

Lemma scan_window_spec (land_mask : grid bool) (buffer_tiles y x : Z) :
  Np.rect land_mask →
  ∃ d, scan_window land_mask (Np.shape land_mask).1 (Np.shape land_mask).2
         buffer_tiles y x = Some d ∧
    ∀ k, dist_le_int d k = true ↔
         ∃ dy dx, - buffer_tiles ≤ dy ≤ buffer_tiles ∧
                  - buffer_tiles ≤ dx ≤ buffer_tiles ∧ hit land_mask y x dy dx k.
Proof.
  intros Hr. unfold scan_window.
  set (win := range (- buffer_tiles) (buffer_tiles + 1)).
  edestruct (for_each_min
    (λ dy k, ∃ dx, dx ∈ win ∧ hit land_mask y x dy dx k) win) as (d & Hd & Hle);
    [|exists d; split; [exact Hd|]].
  - intros dy d0 _.
    edestruct (for_each_min (λ dx k, hit land_mask y x dy dx k) win)
      as (d & Hd & Hle); [|exists d; split; [exact Hd|exact Hle]].
    intros dx d1 _. cbn zeta.
    destruct (decide (0 ≤ y + dy < (Np.shape land_mask).1)) as [Hy|Hy];
      [rewrite (bool_decide_eq_true_2 _ Hy)|rewrite (bool_decide_eq_false_2 _ Hy)];
      cbn [andb].
    2:{ exists d1. split; [done|]. unfold hit. intuition (try done; try lia). }
    destruct (decide (0 ≤ x + dx < (Np.shape land_mask).2)) as [Hx|Hx];
      [rewrite (bool_decide_eq_true_2 _ Hx)|rewrite (bool_decide_eq_false_2 _ Hx)];
      cbn [andb].
    2:{ exists d1. split; [done|]. unfold hit. intuition (try done; try lia). }
    destruct (NpFacts.getitem_cell land_mask _ _ Hr Hy Hx) as [Hget [b Hb]].
    rewrite Hb. rewrite Hb in Hget. cbn. destruct b.
    + eexists; split; [done|]. intros k. rewrite py_min_le, orb_true_iff.
      unfold hit, np_sqrt. cbn. rewrite andb_true_iff, !bool_decide_eq_true.
      intuition (try done; try lia).
    + exists d1. split; [done|]. unfold hit. rewrite <- Hget.
      intuition (try done; try lia).
  - intros k. rewrite Hle. cbn. subst win. split.
    + intros [?|(dy & Hdy & dx & Hdx & Hhit)]; [done|].
      apply elem_of_range in Hdy, Hdx. exists dy, dx. repeat split; try lia; apply Hhit.
    + intros (dy & dx & Hdy & Hdx & Hhit). right. exists dy.
      rewrite elem_of_range. split; [lia|]. exists dx.
      rewrite elem_of_range. split; [lia|done].
Qed.

(** ** The pass over the cells *)

Section Pass.
Variable land_mask : grid bool.
Variable buffer_tiles : Z.
Hypothesis Hrect : Np.rect land_mask.

Let height := (Np.shape land_mask).1.
Let width := (Np.shape land_mask).2.

Local Abbreviation pass_inv := (pass_inv land_mask buffer_tiles).
Local Abbreviation pass_frame := (pass_frame land_mask buffer_tiles).

Lemma classify_land i j :
  Np.cell land_mask i j = Some true →
  classify land_mask buffer_tiles i j = Some 2.
Proof. intros Hc. unfold classify. by rewrite Hc. Qed.

Lemma classify_water i j :
  Np.cell land_mask i j = Some false →
  ∃ d, scan_window land_mask height width buffer_tiles
         (Z.of_nat i) (Z.of_nat j) = Some d ∧
       classify land_mask buffer_tiles i j =
         Some (if dist_le_int d buffer_tiles then 1 else 0).
Proof.
  intros Hc.
  destruct (scan_window_spec land_mask buffer_tiles (Z.of_nat i) (Z.of_nat j) Hrect)
    as (d & Hd & _).
  exists d. split; [done|]. unfold classify. rewrite Hc. cbn. by rewrite Hd.
Qed.

Lemma classify_outside i j :
  Np.cell land_mask i j = None → classify land_mask buffer_tiles i j = None.
Proof. intros Hc. unfold classify. by rewrite Hc. Qed.

Lemma visit_spec (y x : Z) (terrain : grid Z) :
  0 ≤ y < height → 0 ≤ x < width → pass_inv terrain →
  ∃ terrain',
    visit land_mask height width buffer_tiles y x terrain = Some terrain' ∧
    pass_inv terrain' ∧
    Np.cell terrain' (Z.to_nat y) (Z.to_nat x) =
      classify land_mask buffer_tiles (Z.to_nat y) (Z.to_nat x) ∧
    pass_frame terrain terrain'.
Proof.
  intros Hy Hx [Hlen Hcells].
  assert (pass_frame terrain terrain) as Hrefl by (by intros i j).
  assert (is_Some (Np.cell land_mask (Z.to_nat y) (Z.to_nat x))) as [b Hb].
  { apply NpFacts.cell_is_Some; [done|]. fold height width. lia. }
  assert (is_Some (Np.cell terrain (Z.to_nat y) (Z.to_nat x))) as Hsome.
  { apply (NpFacts.lengths_cell_is_Some _ _ _ _ Hlen). eauto. }
  assert (Np.getitem terrain y x = Np.cell terrain (Z.to_nat y) (Z.to_nat x))
    as Hget.
  { unfold Np.getitem, Np.cell in *.
    destruct (terrain !! Z.to_nat y) as [row|] eqn:Hrow; [|by destruct Hsome].
    apply lookup_lt_Some in Hrow as Hi. rewrite NpFacts.index_nonneg by lia.
    cbn in *. rewrite Hrow. cbn. apply lookup_lt_is_Some in Hsome.
    by rewrite NpFacts.index_nonneg by lia. }
  destruct Hsome as [t Ht]. unfold visit. rewrite Hget, Ht. cbn.
  specialize (Hcells (Z.to_nat y) (Z.to_nat x)) as Hhere.
  unfold initial in Hhere. rewrite Ht, Hb in Hhere. cbn in Hhere.
  destruct b.
  - (* a land cell: already final *)
    rewrite classify_land in Hhere by done.
    assert (t = 2) as -> by (destruct Hhere; congruence). cbn.
    exists terrain. repeat split; try done. by rewrite classify_land.
  - destruct (classify_water _ _ Hb) as (d & Hd & Hfinal).
    rewrite !Z2Nat.id in Hd by lia. rewrite Hfinal in Hhere.
    case_bool_decide as Ht0; [subst t|].
    + rewrite Hd. cbn. destruct (dist_le_int d buffer_tiles) eqn:Hle.
      * destruct (NpFacts.setitem_cells terrain y x 1)
          as (terrain' & Hset & Hlen' & Hnew & Hother); [lia | lia | eauto |].
        exists terrain'. split; [done|]. split; [|split].
        -- split; [congruence|]. intros i j.
           destruct (decide ((i, j) = (Z.to_nat y, Z.to_nat x))) as [[= -> ->]|Hne].
           ++ right. by rewrite Hnew, Hfinal.
           ++ rewrite Hother by done. apply Hcells.
        -- by rewrite Hnew, Hfinal.
        -- intros i j Hij.
           destruct (decide ((i, j) = (Z.to_nat y, Z.to_nat x))) as [[= -> ->]|Hne].
           ++ by rewrite Hnew, Hfinal.
           ++ by rewrite Hother.
      * exists terrain. repeat split; try done. by rewrite Ht, Hfinal.
    + exists terrain. repeat split; try done. rewrite Ht, Hfinal.
      destruct Hhere as [[= ?]|?]; done.
Qed.

Lemma setmask_initial :
  ∃ terrain, Np.setmask (Np.zeros 0 height width) land_mask 2 = Some terrain ∧
    length <$> terrain = length <$> land_mask ∧
    ∀ i j, Np.cell terrain i j = initial land_mask i j.
Proof.
  destruct (NpFacts.setmask_cells (Np.zeros 0 height width) land_mask 2)
    as (terrain & Hset & Hlen & Hcells); [by apply NpFacts.lengths_zeros|].
  exists terrain. repeat split; try done. intros i j.
  rewrite Hcells. unfold initial.
  destruct (Np.cell land_mask i j) as [b|] eqn:Hb; cbn.
  - assert (is_Some (Np.cell land_mask i j)) as Hs by eauto.
    apply NpFacts.cell_is_Some in Hs as [Hi Hj]; [|done].
    by rewrite NpFacts.cell_zeros.
  - by destruct (Np.cell (Np.zeros 0 height width) i j).
Qed.

(** The loops terminate without an exception and leave [classify] in
    every cell. *)
Lemma generate_shallow_water_cells :
  ∃ terrain, generate_shallow_water land_mask buffer_tiles = Some terrain ∧
    length <$> terrain = length <$> land_mask ∧
    ∀ i j, Np.cell terrain i j = classify land_mask buffer_tiles i j.
Proof.
  unfold generate_shallow_water.
  rewrite (surjective_pairing (Np.shape land_mask)). fold height width.
  destruct setmask_initial as (t0 & -> & Hlen0 & Hinit). cbn.
  assert (∀ t, pass_frame t t) as Hrefl by (by intros t i j).
  assert (∀ t1 t2 t3, pass_frame t1 t2 → pass_frame t2 t3 → pass_frame t1 t3)
    as Htrans by (intros t1 t2 t3 H12 H23 i j ?; by apply H23, H12).
  edestruct (for_each_done pass_inv
    (λ y t, ∀ x, 0 ≤ x < width →
       Np.cell t (Z.to_nat y) (Z.to_nat x) =
         classify land_mask buffer_tiles (Z.to_nat y) (Z.to_nat x))
    pass_frame (range 0 height)) as (terrain & Hrun & [Hlen Hcells] & Hdone & _);
    [exact Hrefl | exact Htrans | | | | exists terrain; split; [exact Hrun|] ].
  - intros y t t' Hrow Hframe x Hx. by apply Hframe, Hrow.
  - split; [done|]. intros i j. left. apply Hinit.
  - intros y t Hy Hinv. apply elem_of_range in Hy.
    edestruct (for_each_done pass_inv
      (λ x t, Np.cell t (Z.to_nat y) (Z.to_nat x) =
         classify land_mask buffer_tiles (Z.to_nat y) (Z.to_nat x))
      pass_frame (range 0 width)) as (t' & Hrun & Hinv' & Hdone & Hframe);
      [exact Hrefl | exact Htrans | | exact Hinv | |
       exists t'; split; [exact Hrun|] ].
    + intros x t1 t2 Hcell Hframe. by apply Hframe.
    + intros x t1 Hx Hinv1. apply elem_of_range in Hx.
      apply visit_spec; [lia | lia | done].
    + split; [done|]. split; [|done].
      intros x Hx. apply Hdone, elem_of_range. lia.
  - split; [done|]. intros i j.
    destruct (Np.cell land_mask i j) as [b|] eqn:Hb.
    + assert (is_Some (Np.cell land_mask i j)) as Hs by eauto.
      apply NpFacts.cell_is_Some in Hs as [Hi Hj]; [|done].
      specialize (Hdone (Z.of_nat i)). rewrite elem_of_range in Hdone.
      specialize (Hdone ltac:(fold height in Hi; lia) (Z.of_nat j)
                    ltac:(fold width in Hj; lia)).
      by rewrite !Nat2Z.id in Hdone.
    + destruct (Hcells i j) as [->| ->]; [|done].
      unfold initial. rewrite Hb. by rewrite classify_outside.
Qed.
End Pass.

(** ** Land within reach *)

(** The square window loses nothing: an offset beyond [k] on either axis is
    already further than [k] away. *)
Lemma offset_in_window (dy dx k : Z) :
  0 ≤ k → dx * dx + dy * dy ≤ float64_reach k → - k ≤ dy ≤ k ∧ - k ≤ dx ≤ k.
Proof.
  intros Hk Hd. unfold float64_reach in Hd.
  pose proof (float64_slack_bounds k Hk). nia.
Qed.

Lemma window_land_within (land_mask : grid bool) (k : Z) (i j : nat) :
  Np.rect land_mask → 0 ≤ k →
  (∃ dy dx, - k ≤ dy ≤ k ∧ - k ≤ dx ≤ k ∧
     hit land_mask (Z.of_nat i) (Z.of_nat j) dy dx k) ↔
  land_within land_mask k i j.
Proof.
  intros Hr Hk. unfold hit, land_within. split.
  - intros (dy & dx & _ & _ & Hy & Hx & Hc & _ & Hd).
    exists (Z.to_nat (Z.of_nat i + dy)), (Z.to_nat (Z.of_nat j + dx)).
    split; [done|]. rewrite !Z2Nat.id by lia.
    by replace (Z.of_nat j + dx - Z.of_nat j) with dx by lia;
       replace (Z.of_nat i + dy - Z.of_nat i) with dy by lia.
  - intros (ly & lx & Hc & Hd).
    assert (is_Some (Np.cell land_mask ly lx)) as Hs by eauto.
    apply NpFacts.cell_is_Some in Hs as [Hy Hx]; [|done].
    exists (Z.of_nat ly - Z.of_nat i), (Z.of_nat lx - Z.of_nat j).
    destruct (offset_in_window _ _ _ Hk Hd) as [? ?].
    replace (Z.of_nat i + (Z.of_nat ly - Z.of_nat i)) with (Z.of_nat ly) by lia.
    replace (Z.of_nat j + (Z.of_nat lx - Z.of_nat j)) with (Z.of_nat lx) by lia.
    rewrite !Nat2Z.id. repeat split; try done; lia.
Qed.

Lemma squares_zero (a b : Z) : a * a + b * b ≤ 0 → a = 0 ∧ b = 0.
Proof.
  intros Hs. pose proof (Z.square_nonneg a). pose proof (Z.square_nonneg b).
  split; apply Z.eq_square_0; lia.
Qed.

Lemma land_within_zero (land_mask : grid bool) (i j : nat) :
  land_within land_mask 0 i j → Np.cell land_mask i j = Some true.
Proof.
  intros (ly & lx & Hland & Hd).
  assert (Z.of_nat lx - Z.of_nat j = 0 ∧ Z.of_nat ly - Z.of_nat i = 0)
    as [Hx Hy] by (by apply squares_zero).
  by replace i with ly by lia; replace j with lx by lia.
Qed.

(** The three outcomes for a cell of the grid. *)
Lemma classify_cases (land_mask : grid bool) (buffer_tiles : Z) (i j : nat) (v : Z) :
  Np.rect land_mask →
  classify land_mask buffer_tiles i j = Some v ↔
    (v = 2 ∧ Np.cell land_mask i j = Some true) ∨
    (v = 1 ∧ Np.cell land_mask i j = Some false ∧
       0 ≤ buffer_tiles ∧ land_within land_mask buffer_tiles i j) ∨
    (v = 0 ∧ Np.cell land_mask i j = Some false ∧
       ¬ (0 ≤ buffer_tiles ∧ land_within land_mask buffer_tiles i j)).
Proof.
  intros Hr.
  assert (∀ d, (∀ k, dist_le_int d k = true ↔
              ∃ dy dx, - buffer_tiles ≤ dy ≤ buffer_tiles ∧
                - buffer_tiles ≤ dx ≤ buffer_tiles ∧
                hit land_mask (Z.of_nat i) (Z.of_nat j) dy dx k) →
            dist_le_int d buffer_tiles = true ↔
            0 ≤ buffer_tiles ∧ land_within land_mask buffer_tiles i j) as Hreach.
  { intros d Hd. rewrite Hd. split.
    - intros Hex. assert (0 ≤ buffer_tiles) as Hk.
      { destruct Hex as (? & ? & _ & _ & Hh). apply Hh. }
      split; [done|]. by apply window_land_within.
    - intros [Hk Hl]. by apply window_land_within. }
  destruct (Np.cell land_mask i j) as [[]|] eqn:Hb.
  - rewrite classify_land by done. split.
    + intros [= <-]. by left.
    + intros [[-> _]|[(_ & ? & _)|(_ & ? & _)]]; done.
  - destruct (scan_window_spec land_mask buffer_tiles (Z.of_nat i) (Z.of_nat j) Hr)
      as (d & Hd & Hle).
    unfold classify. rewrite Hb. cbn. rewrite Hd. cbn.
    specialize (Hreach d Hle).
    destruct (dist_le_int d buffer_tiles); split.
    + intros [= <-]. right; left. repeat split; try done; by apply Hreach.
    + intros [[_ ?]|[(-> & _)|(_ & _ & Hn)]]; [done | done |].
      destruct Hn. by apply Hreach.
    + intros [= <-]. right; right. repeat split; try done.
      intros Hn. by apply Hreach in Hn.
    + intros [[_ ?]|[(_ & _ & Hn)|(-> & _)]]; [done | | done].
      by apply Hreach in Hn.
  - rewrite classify_outside by done. split; [done|].
    intros [[_ ?]|[(_ & ? & _)|(_ & ? & _)]]; done.
Qed.

(** A negative radius leaves the window empty. *)
Lemma scan_window_negative (land_mask : grid bool) (height width r y x : Z) :
  r < 0 → scan_window land_mask height width r y x = Some inf.
Proof. intros Hr. unfold scan_window. by rewrite range_empty by lia. Qed.

(** * The specification's claims about [generate_shallow_water] *)

Lemma rect_mask5 : Np.rect mask5.
Proof. unfold Np.rect. repeat constructor. Qed.

(** C2. For every land mask and every radius, the call returns a grid of
    the mask's shape in which a cell is LAND if and only if the mask is
    True there: a True cell is never WATER or SHALLOW and a False cell is
    never LAND. *)
Theorem land_iff_mask (land_mask : grid bool) (radius : Z) :
  Np.rect land_mask →
  ∃ terrain, generate_shallow_water land_mask radius = Some terrain ∧
    length <$> terrain = length <$> land_mask ∧
    ∀ i j,
      (Np.cell terrain i j = Some LAND ↔ Np.cell land_mask i j = Some true) ∧
      (Np.cell land_mask i j = Some true →
         Np.cell terrain i j ≠ Some WATER ∧ Np.cell terrain i j ≠ Some SHALLOW) ∧
      (Np.cell land_mask i j = Some false → Np.cell terrain i j ≠ Some LAND).
Proof.
  intros Hr.
  destruct (generate_shallow_water_cells land_mask radius Hr)
    as (terrain & Hrun & Hlen & Hcells).
  exists terrain. split; [done|]. split; [done|]. intros i j.
  rewrite Hcells. unfold LAND, WATER, SHALLOW. split; [|split].
  - rewrite classify_cases by done. split.
    + intros [[_ ?]|[(? & _)|(? & _)]]; done.
    + intros Hb. by left.
  - intros Hb. rewrite classify_land by done. done.
  - intros Hb Hc. apply classify_cases in Hc as [[_ ?]|[(? & _)|(? & _)]];
      [congruence | done | done | done].
Qed.

Lemma land_iff_mask_witness :
  Np.rect mask5 ∧
  ∃ terrain, generate_shallow_water mask5 2 = Some terrain ∧
    length <$> terrain = length <$> mask5 ∧
    ∀ i j,
      (Np.cell terrain i j = Some LAND ↔ Np.cell mask5 i j = Some true) ∧
      (Np.cell mask5 i j = Some true →
         Np.cell terrain i j ≠ Some WATER ∧ Np.cell terrain i j ≠ Some SHALLOW) ∧
      (Np.cell mask5 i j = Some false → Np.cell terrain i j ≠ Some LAND).
Proof.
  split; [unfold Np.rect; repeat constructor|].
  apply (land_iff_mask mask5 2). unfold Np.rect. repeat constructor.
Defined.

(** C3. Monotonicity in the radius: for radii [0 <= r1 <= r2] both calls
    return, every cell SHALLOW at [r1] is SHALLOW at [r2], every LAND cell
    stays LAND, and no cell that is SHALLOW or LAND at [r1] is WATER at
    [r2]. *)
Theorem radius_monotone (land_mask : grid bool) (r1 r2 : Z) :
  Np.rect land_mask → 0 ≤ r1 → r1 ≤ r2 →
  ∃ t1 t2,
    generate_shallow_water land_mask r1 = Some t1 ∧
    generate_shallow_water land_mask r2 = Some t2 ∧
    ∀ i j,
      (Np.cell t1 i j = Some SHALLOW → Np.cell t2 i j = Some SHALLOW) ∧
      (Np.cell t1 i j = Some LAND → Np.cell t2 i j = Some LAND) ∧
      (Np.cell t1 i j = Some SHALLOW ∨ Np.cell t1 i j = Some LAND →
         Np.cell t2 i j ≠ Some WATER).
Proof.
  intros Hr H1 H12.
  destruct (generate_shallow_water_cells land_mask r1 Hr) as (t1 & Hrun1 & _ & Hc1).
  destruct (generate_shallow_water_cells land_mask r2 Hr) as (t2 & Hrun2 & _ & Hc2).
  exists t1, t2. split; [done|]. split; [done|]. intros i j.
  rewrite Hc1, Hc2. unfold SHALLOW, LAND, WATER.
  assert (classify land_mask r1 i j = Some 1 → classify land_mask r2 i j = Some 1)
    as Hshallow.
  { rewrite !classify_cases by done.
    intros [[? _]|[(_ & Hb & _ & ly & lx & Hland & Hd)|(? & _)]]; [done | | done].
    right; left. repeat split; [done | lia |]. exists ly, lx. split; [done|].
    pose proof (float64_reach_mono r1 r2 H1 H12). lia. }
  assert (classify land_mask r1 i j = Some 2 → classify land_mask r2 i j = Some 2)
    as Hland.
  { rewrite !classify_cases by done.
    intros [[_ Hb]|[(? & _)|(? & _)]]; [by left | done | done]. }
  split; [done|]. split; [done|].
  intros [H|H]; [apply Hshallow in H | apply Hland in H]; by rewrite H.
Qed.

Lemma radius_monotone_witness :
  ∃ t1 t2,
    generate_shallow_water mask5 1 = Some t1 ∧
    generate_shallow_water mask5 2 = Some t2 ∧
    ∀ i j,
      (Np.cell t1 i j = Some SHALLOW → Np.cell t2 i j = Some SHALLOW) ∧
      (Np.cell t1 i j = Some LAND → Np.cell t2 i j = Some LAND) ∧
      (Np.cell t1 i j = Some SHALLOW ∨ Np.cell t1 i j = Some LAND →
         Np.cell t2 i j ≠ Some WATER).
Proof.
  apply (radius_monotone mask5 1 2); [unfold Np.rect; repeat constructor | lia | lia].
Defined.

(** C4. With radius 0 the grid has no SHALLOW cell: every True cell of the
    mask is LAND and every False cell is WATER. *)
Theorem radius_zero_no_shallow (land_mask : grid bool) :
  Np.rect land_mask →
  ∃ terrain, generate_shallow_water land_mask 0 = Some terrain ∧
    ∀ i j,
      Np.cell terrain i j ≠ Some SHALLOW ∧
      (Np.cell land_mask i j = Some true → Np.cell terrain i j = Some LAND) ∧
      (Np.cell land_mask i j = Some false → Np.cell terrain i j = Some WATER).
Proof.
  intros Hr.
  destruct (generate_shallow_water_cells land_mask 0 Hr) as (terrain & Hrun & _ & Hc).
  exists terrain. split; [done|]. intros i j. rewrite Hc.
  unfold SHALLOW, LAND, WATER.
  assert (Np.cell land_mask i j = Some false → ¬ land_within land_mask 0 i j)
    as Hnone.
  { intros Hb Hl. apply land_within_zero in Hl. congruence. }
  split; [|split].
  - rewrite classify_cases by done.
    intros [[? _]|[(_ & Hb & _ & Hl)|(? & _)]]; [done | | done]. by apply Hnone.
  - intros Hb. by apply classify_land.
  - intros Hb. apply classify_cases; [done|]. right; right.
    repeat split; [done|]. intros [_ Hl]. by apply Hnone.
Qed.

Lemma radius_zero_no_shallow_witness :
  ∃ terrain, generate_shallow_water mask5 0 = Some terrain ∧
    ∀ i j,
      Np.cell terrain i j ≠ Some SHALLOW ∧
      (Np.cell mask5 i j = Some true → Np.cell terrain i j = Some LAND) ∧
      (Np.cell mask5 i j = Some false → Np.cell terrain i j = Some WATER).
Proof.
  apply (radius_zero_no_shallow mask5). unfold Np.rect. repeat constructor.
Defined.

(** C9. For a negative radius the offset range is empty, the scan of every
    window ends with [min_dist] still infinite, and the call returns,
    without an exception, the grid it returns for radius 0: no cell is
    SHALLOW. *)
Theorem negative_radius_as_zero (land_mask : grid bool) (radius : Z) :
  Np.rect land_mask → radius < 0 →
  range (- radius) (radius + 1) = [] ∧
  (∀ y x, scan_window land_mask (Np.shape land_mask).1 (Np.shape land_mask).2
            radius y x = Some inf) ∧
  ∃ terrain,
    generate_shallow_water land_mask radius = Some terrain ∧
    generate_shallow_water land_mask 0 = Some terrain ∧
    ∀ i j, Np.cell terrain i j ≠ Some SHALLOW.
Proof.
  intros Hr Hneg. split; [apply range_empty; lia|].
  split; [intros y x; by apply scan_window_negative|].
  destruct (generate_shallow_water_cells land_mask radius Hr)
    as (terrain & Hrun & Hlen & Hc).
  destruct (generate_shallow_water_cells land_mask 0 Hr)
    as (terrain0 & Hrun0 & Hlen0 & Hc0).
  assert (∀ i j, classify land_mask radius i j ≠ Some 1) as Hno.
  { intros i j. rewrite classify_cases by done.
    intros [[? _]|[(_ & _ & ? & _)|(? & _)]]; [done | lia | done]. }
  assert (terrain0 = terrain) as ->.
  { apply NpFacts.grid_ext; [congruence|]. intros i j. rewrite Hc, Hc0.
    destruct (classify land_mask radius i j) as [v|] eqn:Hv.
    - apply classify_cases in Hv as [[-> Hb]|[(_ & _ & ? & _)|(-> & Hb & _)]];
        [ | lia | | done].
      + by apply classify_land.
      + apply classify_cases; [done|]. right; right. repeat split; [done|].
        intros [_ Hl]. apply land_within_zero in Hl. congruence.
    - destruct (Np.cell land_mask i j) as [b|] eqn:Hb.
      + exfalso. destruct b.
        * by rewrite classify_land in Hv.
        * destruct (classify_water land_mask radius Hr _ _ Hb) as (d & _ & Hd).
          congruence.
      + by apply classify_outside. }
  exists terrain. repeat split; try done. intros i j. rewrite Hc. apply Hno.
Qed.

Lemma negative_radius_as_zero_witness :
  range (- -3) (-3 + 1) = [] ∧
  (∀ y x, scan_window mask5 (Np.shape mask5).1 (Np.shape mask5).2 (-3) y x
          = Some inf) ∧
  ∃ terrain,
    generate_shallow_water mask5 (-3) = Some terrain ∧
    generate_shallow_water mask5 0 = Some terrain ∧
    ∀ i j, Np.cell terrain i j ≠ Some SHALLOW.
Proof.
  apply (negative_radius_as_zero mask5 (-3)); [unfold Np.rect; repeat constructor | lia].
Defined.

(** ** Euclidean distance *)

(** Comparing the square root with an integer is comparing the squares. *)
Lemma euclid_le (dy dx r : Z) :
  0 ≤ r → (euclid dy dx <= IZR r)%R ↔ dx * dx + dy * dy ≤ r * r.
Proof.
  intros Hr. unfold euclid.
  assert (0 ≤ dx * dx + dy * dy) as Hn
    by (pose proof (Z.square_nonneg dx); pose proof (Z.square_nonneg dy); lia).
  assert (sqrt (IZR (r * r)) = IZR r) as Hsq.
  { rewrite mult_IZR. apply sqrt_square. by apply IZR_le. }
  split.
  - intros Hle. destruct (decide (dx * dx + dy * dy ≤ r * r)) as [|Hgt]; [done|].
    exfalso. apply (Rlt_irrefl (IZR r)).
    eapply Rlt_le_trans; [|exact Hle]. rewrite <- Hsq.
    apply sqrt_lt_1_alt. split; [apply IZR_le; nia | apply IZR_lt; lia].
  - intros Hle. rewrite <- Hsq. apply sqrt_le_1_alt. by apply IZR_le.
Qed.

Lemma euclid_eq (dy dx r : Z) :
  0 ≤ r → euclid dy dx = IZR r → dx * dx + dy * dy ≤ r * r.
Proof. intros Hr Heq. apply euclid_le; [done|]. rewrite Heq. apply Rle_refl. Qed.

(** *** A wide mask at radius 2^26 *)

Lemma wide_mask_rect (n : nat) : Np.rect (wide_mask n).
Proof.
  unfold Np.rect, Np.shape, wide_mask. cbn [head from_option snd].
  repeat apply Forall_cons; [| |apply Forall_nil];
    cbn [length]; rewrite !length_replicate; done.
Qed.

Lemma wide_mask_land (n ly lx : nat) :
  Np.cell (wide_mask n) ly lx = Some true → ly = 0%nat ∧ lx = 0%nat.
Proof.
  unfold Np.cell, wide_mask. destruct ly as [|[|ly]]; cbn [lookup list_lookup mbind option_bind].
  - destruct lx as [|lx]; [done|]. cbn [lookup list_lookup].
    intros Hl. apply lookup_replicate in Hl as [? _]. done.
  - intros Hl. apply lookup_replicate in Hl as [? _]. done.
  - done.
Qed.

(** The cell below the far end of the first row is promoted as soon as
    rounding lets the squared distance [n * n + 1] pass. *)
Lemma wide_mask_far_cell (n : nat) (k : Z) :
  0 ≤ k → Z.of_nat n * Z.of_nat n + 1 ≤ float64_reach k →
  ∃ terrain, generate_shallow_water (wide_mask n) k = Some terrain ∧
    Np.cell terrain 1 n = Some SHALLOW.
Proof.
  intros Hk Hreach. pose proof (wide_mask_rect n) as Hr.
  destruct (generate_shallow_water_cells (wide_mask n) k Hr)
    as (terrain & Hrun & _ & Hc).
  exists terrain. split; [done|]. rewrite Hc. apply classify_cases; [done|].
  right; left. unfold SHALLOW. repeat split; [| done |].
  - unfold Np.cell, wide_mask. cbn [lookup list_lookup mbind option_bind].
    apply lookup_replicate_2. lia.
  - exists 0%nat, 0%nat. split; [done|]. lia.
Qed.

(** C1, as the claim states it, fails from radius 2^26 on, where the
    rounding of [np.sqrt] shows.  In the mask of shape (2, 2^26 + 1) with
    land at [0, 0] only, the cell at [1, 2^26] lies at distance
    [sqrt (2^52 + 1) > 2^26] from the land; the root rounds to [2^26], line
    82 holds for radius [2^26] and the cell is SHALLOW. *)
Lemma shallow_beyond_disk_at_2_26 :
  ¬ ∃ terrain,
      generate_shallow_water (wide_mask (Z.to_nat 67108864)) 67108864
        = Some terrain ∧
      ∀ i j : nat,
        (Np.cell terrain i j = Some SHALLOW →
           ∃ ly lx : nat,
             Np.cell (wide_mask (Z.to_nat 67108864)) ly lx = Some true ∧
             (euclid (Z.of_nat ly - Z.of_nat i) (Z.of_nat lx - Z.of_nat j)
                <= IZR 67108864)%R) ∧
        (Np.cell terrain i j = Some WATER →
           ∀ ly lx : nat,
             Np.cell (wide_mask (Z.to_nat 67108864)) ly lx = Some true →
             ¬ (euclid (Z.of_nat ly - Z.of_nat i) (Z.of_nat lx - Z.of_nat j)
                  <= IZR 67108864)%R) ∧
        (Np.cell (wide_mask (Z.to_nat 67108864)) i j = Some false →
           ∀ ly lx : nat,
             Np.cell (wide_mask (Z.to_nat 67108864)) ly lx = Some true →
             euclid (Z.of_nat ly - Z.of_nat i) (Z.of_nat lx - Z.of_nat j)
               = IZR 67108864 →
             Np.cell terrain i j = Some SHALLOW).
Proof.
  pose proof (Z2Nat.id 67108864 ltac:(lia)) as Hn. revert Hn.
  generalize (Z.to_nat 67108864). intros n Hn (terrain & Hrun & Hclaim).
  destruct (wide_mask_far_cell n 67108864) as (terrain' & Hrun' & Hcell);
    [lia | rewrite Hn; by vm_compute |].
  assert (terrain' = terrain) as -> by congruence.
  destruct (proj1 (Hclaim 1%nat n) Hcell) as (ly & lx & Hland & Hd).
  apply wide_mask_land in Hland as [-> ->].
  apply euclid_le in Hd; [|lia]. rewrite Hn in Hd. lia.
Qed.

(** C1, amended. For every land mask and radius with
    [0 <= radius < 2^26] the call returns a grid in which every SHALLOW
    cell has a land cell of the mask at Euclidean distance
    [sqrt (dx² + dy²) <= radius], no WATER cell has one, and a non-land cell
    with a land cell at distance exactly [radius] is SHALLOW, although only
    the clipped square window is scanned. *)
Theorem shallow_iff_land_in_disk (land_mask : grid bool) (radius : Z) :
  Np.rect land_mask → 0 ≤ radius → radius < 67108864 →
  ∃ terrain, generate_shallow_water land_mask radius = Some terrain ∧
    ∀ i j : nat,
      (Np.cell terrain i j = Some SHALLOW →
         ∃ ly lx : nat, Np.cell land_mask ly lx = Some true ∧
           (euclid (Z.of_nat ly - Z.of_nat i) (Z.of_nat lx - Z.of_nat j)
              <= IZR radius)%R) ∧
      (Np.cell terrain i j = Some WATER →
         ∀ ly lx : nat, Np.cell land_mask ly lx = Some true →
           ¬ (euclid (Z.of_nat ly - Z.of_nat i) (Z.of_nat lx - Z.of_nat j)
                <= IZR radius)%R) ∧
      (Np.cell land_mask i j = Some false →
         ∀ ly lx : nat, Np.cell land_mask ly lx = Some true →
           euclid (Z.of_nat ly - Z.of_nat i) (Z.of_nat lx - Z.of_nat j)
             = IZR radius →
           Np.cell terrain i j = Some SHALLOW).
Proof.
  intros Hr Hrad Hsmall.
  assert (float64_reach radius = radius * radius) as Hreach
    by (apply float64_reach_small; lia).
  destruct (generate_shallow_water_cells land_mask radius Hr)
    as (terrain & Hrun & _ & Hc).
  exists terrain. split; [done|]. intros i j. rewrite Hc.
  unfold SHALLOW, WATER, land_within. rewrite !classify_cases by done.
  unfold land_within. rewrite Hreach. split; [|split].
  - intros [[? _]|[(_ & _ & _ & ly & lx & Hland & Hd)|(? & _)]]; [done | | done].
    exists ly, lx. split; [done|]. by apply euclid_le.
  - intros [[? _]|[(? & _)|(_ & _ & Hn)]]; [done | done |].
    intros ly lx Hland Hd. apply Hn. split; [done|].
    exists ly, lx. split; [done|]. by apply euclid_le in Hd.
  - intros Hb ly lx Hland Hd. apply classify_cases; [done|]. right; left.
    repeat split; try done. exists ly, lx. split; [done|].
    rewrite Hreach. by apply euclid_eq.
Qed.

Lemma shallow_iff_land_in_disk_witness :
  ∃ terrain, generate_shallow_water mask5 2 = Some terrain ∧
    ∀ i j : nat,
      (Np.cell terrain i j = Some SHALLOW →
         ∃ ly lx : nat, Np.cell mask5 ly lx = Some true ∧
           (euclid (Z.of_nat ly - Z.of_nat i) (Z.of_nat lx - Z.of_nat j)
              <= IZR 2)%R) ∧
      (Np.cell terrain i j = Some WATER →
         ∀ ly lx : nat, Np.cell mask5 ly lx = Some true →
           ¬ (euclid (Z.of_nat ly - Z.of_nat i) (Z.of_nat lx - Z.of_nat j)
                <= IZR 2)%R) ∧
      (Np.cell mask5 i j = Some false →
         ∀ ly lx : nat, Np.cell mask5 ly lx = Some true →
           euclid (Z.of_nat ly - Z.of_nat i) (Z.of_nat lx - Z.of_nat j)
             = IZR 2 →
           Np.cell terrain i j = Some SHALLOW).
Proof.
  apply (shallow_iff_land_in_disk mask5 2);
    [unfold Np.rect; repeat constructor | lia | lia].
Defined.

(** C5, as the specification states it, fails: the 5×5 grid with land only
    at (2,2) and radius 2 does not have 20 SHALLOW and 4 WATER cells. *)
Lemma boundary_5x5_not_20_shallow :
  ¬ ∃ terrain, generate_shallow_water mask5 2 = Some terrain ∧
      count LAND terrain = 1%nat ∧
      count SHALLOW terrain = 20%nat ∧
      count WATER terrain = 4%nat.
Proof.
  intros (terrain & Hrun & _ & Hshallow & _).
  vm_compute in Hrun. injection Hrun as <-.
  vm_compute in Hshallow. discriminate.
Qed.

(** C5, amended. For the 5×5 mask with land only at (2,2) and radius 2 the
    grid has 1 LAND cell, at (2,2), 12 SHALLOW cells and 12 WATER cells: the
    disk of radius 2 holds the centre and twelve neighbours; the four
    corners (squared distance 8) and the eight cells a knight's move away
    (squared distance 5) stay WATER. *)
Theorem boundary_5x5 :
  ∃ terrain, generate_shallow_water mask5 2 = Some terrain ∧
    terrain = [ [WATER;   WATER;   SHALLOW; WATER;   WATER];
                [WATER;   SHALLOW; SHALLOW; SHALLOW; WATER];
                [SHALLOW; SHALLOW; LAND;    SHALLOW; SHALLOW];
                [WATER;   SHALLOW; SHALLOW; SHALLOW; WATER];
                [WATER;   WATER;   SHALLOW; WATER;   WATER] ] ∧
    count LAND terrain = 1%nat ∧
    count SHALLOW terrain = 12%nat ∧
    count WATER terrain = 12%nat ∧
    Np.cell terrain 2 2 = Some LAND.
Proof. eexists. split; [by vm_compute|]. by vm_compute. Qed.

(** * [terrain_to_image] *)

Lemma lengths_eq_scalar (a : grid Z) (v : Z) :
  length <$> Np.eq_scalar a v = length <$> a.
Proof. apply NpFacts.lengths_fmap. Qed.

Lemma cell_eq_scalar (a : grid Z) (v : Z) (i j : nat) :
  Np.cell (Np.eq_scalar a v) i j = (λ c, bool_decide (c = v)) <$> Np.cell a i j.
Proof. apply NpFacts.cell_fmap. Qed.

(** The call returns a buffer of the grid's shape holding [colour_of] of
    every cell. *)
Lemma terrain_to_image_cells (terrain : grid Z) :
  Np.rect terrain →
  ∃ img, terrain_to_image terrain = Some img ∧
    length <$> img = length <$> terrain ∧
    ∀ i j, Np.cell img i j = colour_of <$> Np.cell terrain i j.
Proof.
  intros Hr. unfold terrain_to_image.
  rewrite (surjective_pairing (Np.shape terrain)). cbv beta iota zeta.
  pose proof (NpFacts.lengths_zeros (0, 0, 0) terrain Hr) as Hlen0.
  destruct (NpFacts.setmask_cells
              (Np.zeros (0, 0, 0) (Np.shape terrain).1 (Np.shape terrain).2)
              (Np.eq_scalar terrain 0) (0, 0, 0))
    as (img1 & -> & Hlen1 & Hc1); [by rewrite lengths_eq_scalar|].
  rewrite lengths_eq_scalar in Hlen1.
  destruct (NpFacts.setmask_cells img1 (Np.eq_scalar terrain 1) (0, 255, 255))
    as (img2 & Hrun2 & Hlen2 & Hc2); [by rewrite lengths_eq_scalar|].
  rewrite lengths_eq_scalar in Hlen2.
  destruct (NpFacts.setmask_cells img2 (Np.eq_scalar terrain 2) (255, 255, 255))
    as (img3 & Hrun3 & Hlen3 & Hc3); [by rewrite lengths_eq_scalar|].
  rewrite lengths_eq_scalar in Hlen3.
  cbn. rewrite Hrun2. cbn. rewrite Hrun3. cbn.
  exists img3. split; [done|]. split; [done|]. intros i j.
  rewrite Hc3, Hc2, Hc1, !cell_eq_scalar.
  destruct (Np.cell terrain i j) as [c|] eqn:Hc; cbn.
  - assert (is_Some (Np.cell terrain i j)) as Hs by eauto.
    apply NpFacts.cell_is_Some in Hs as [Hi Hj]; [|done].
    rewrite NpFacts.cell_zeros by done. cbn. unfold colour_of, white, cyan, black.
    repeat case_bool_decide; try done; lia.
  - by destruct (Np.cell (Np.zeros (0, 0, 0) _ _) i j).
Qed.

(** C7. A grid over WATER, SHALLOW and LAND encodes to an image of the
    same height and width with WATER black, SHALLOW cyan and LAND white, so
    at most three colours occur; the 2×2 grid [[WATER, SHALLOW],
    [LAND, WATER]] encodes to [[black, cyan], [white, black]]. *)
Theorem encode_three_colours (terrain : grid Z) :
  Np.rect terrain →
  (∀ i j c, Np.cell terrain i j = Some c → c = WATER ∨ c = SHALLOW ∨ c = LAND) →
  (∃ img, terrain_to_image terrain = Some img ∧
     Np.shape img = Np.shape terrain ∧
     length <$> img = length <$> terrain ∧
     (∀ i j,
        (Np.cell terrain i j = Some WATER → Np.cell img i j = Some (0, 0, 0)) ∧
        (Np.cell terrain i j = Some SHALLOW → Np.cell img i j = Some (0, 255, 255)) ∧
        (Np.cell terrain i j = Some LAND → Np.cell img i j = Some (255, 255, 255))) ∧
     (∀ i j p, Np.cell img i j = Some p →
        p = (0, 0, 0) ∨ p = (0, 255, 255) ∨ p = (255, 255, 255))) ∧
  terrain_to_image [[WATER; SHALLOW]; [LAND; WATER]] =
    Some [[(0, 0, 0); (0, 255, 255)]; [(255, 255, 255); (0, 0, 0)]].
Proof.
  intros Hr Hcodes. split; [|done].
  destruct (terrain_to_image_cells terrain Hr) as (img & Hrun & Hlen & Hc).
  exists img. split; [done|]. split; [|split; [done|split]].
  - by apply NpFacts.shape_lengths.
  - intros i j. rewrite Hc. unfold WATER, SHALLOW, LAND.
    repeat split; by intros ->.
  - intros i j p. rewrite Hc.
    destruct (Np.cell terrain i j) as [c|] eqn:Hcell; [|done].
    intros [= <-]. destruct (Hcodes i j c Hcell) as [->|[->| ->]]; auto.
Qed.

Lemma encode_three_colours_witness :
  (∃ img, terrain_to_image [[WATER; SHALLOW]; [LAND; WATER]] = Some img ∧
     Np.shape img = Np.shape [[WATER; SHALLOW]; [LAND; WATER]] ∧
     length <$> img = length <$> [[WATER; SHALLOW]; [LAND; WATER]] ∧
     (∀ i j,
        (Np.cell [[WATER; SHALLOW]; [LAND; WATER]] i j = Some WATER →
           Np.cell img i j = Some (0, 0, 0)) ∧
        (Np.cell [[WATER; SHALLOW]; [LAND; WATER]] i j = Some SHALLOW →
           Np.cell img i j = Some (0, 255, 255)) ∧
        (Np.cell [[WATER; SHALLOW]; [LAND; WATER]] i j = Some LAND →
           Np.cell img i j = Some (255, 255, 255))) ∧
     (∀ i j p, Np.cell img i j = Some p →
        p = (0, 0, 0) ∨ p = (0, 255, 255) ∨ p = (255, 255, 255))) ∧
  terrain_to_image [[WATER; SHALLOW]; [LAND; WATER]] =
    Some [[(0, 0, 0); (0, 255, 255)]; [(255, 255, 255); (0, 0, 0)]].
Proof.
  apply (encode_three_colours [[WATER; SHALLOW]; [LAND; WATER]]).
  - unfold Np.rect. repeat constructor.
  - intros [|[|i]] [|[|j]] c; cbn; intros [= <-]; auto.
Defined.

(** C10. The call returns for grids holding arbitrary cell values, and a
    cell whose value is none of 0, 1 and 2 comes out as (0,0,0), the colour
    of WATER: the buffer starts at zero and only cells equal to 0, 1 or 2
    are recoloured. *)
Theorem encode_other_values_black (terrain : grid Z) :
  Np.rect terrain →
  ∃ img, terrain_to_image terrain = Some img ∧
    length <$> img = length <$> terrain ∧
    ∀ i j c, Np.cell terrain i j = Some c → c ≠ 0 → c ≠ 1 → c ≠ 2 →
      Np.cell img i j = Some (0, 0, 0) ∧
      ∀ i' j', Np.cell terrain i' j' = Some WATER →
               Np.cell img i j = Np.cell img i' j'.
Proof.
  intros Hr.
  destruct (terrain_to_image_cells terrain Hr) as (img & Hrun & Hlen & Hc).
  exists img. split; [done|]. split; [done|].
  intros i j c Hcell Hn0 Hn1 Hn2. rewrite Hc, Hcell. cbn. unfold colour_of.
  rewrite !bool_decide_eq_false_2 by done. split; [done|].
  intros i' j' Hw. by rewrite Hc, Hw.
Qed.

Lemma encode_other_values_black_witness :
  ∃ img, terrain_to_image [[0; 7]; [255; 2]] = Some img ∧
    length <$> img = length <$> [[0; 7]; [255; 2]] ∧
    ∀ i j c, Np.cell [[0; 7]; [255; 2]] i j = Some c → c ≠ 0 → c ≠ 1 → c ≠ 2 →
      Np.cell img i j = Some (0, 0, 0) ∧
      ∀ i' j', Np.cell [[0; 7]; [255; 2]] i' j' = Some WATER →
               Np.cell img i j = Np.cell img i' j'.
Proof.
  apply (encode_other_values_black [[0; 7]; [255; 2]]).
  unfold Np.rect. repeat constructor.
Defined.

(** * The conversion to float64 *)

Lemma float64_of_nat_small (a : Z) : 0 ≤ a < 2 ^ 53 → float64_of_nat a = a.
Proof.
  intros [Ha Hlt]. unfold float64_of_nat.
  rewrite bool_decide_eq_true_2; [done|].
  destruct (decide (a = 0)) as [->|Hne]; [done|].
  assert (Z.log2 a < 53) by (apply Z.log2_lt_pow2; lia). lia.
Qed.

Lemma float64_of_int_small (z : Z) : Z.abs z < 2 ^ 53 → float64_of_int z = z.
Proof.
  intros Hz. unfold float64_of_int. rewrite float64_of_nat_small by lia. 
  destruct z; cbn; lia.
Qed.

(** Above 2^53: the value lies between the two neighbouring multiples of the
    last place, which are themselves within the binade. *)
Lemma float64_of_nat_bracket (a : Z) :
  0 < Z.log2 a - 52 →
  let e := Z.log2 a - 52 in
  let q := a / 2 ^ e in
  2 ^ 52 ≤ q < 2 ^ 53 ∧ q * 2 ^ e ≤ a < (q + 1) * 2 ^ e ∧
  q * 2 ^ e ≤ float64_of_nat a ≤ (q + 1) * 2 ^ e.
Proof.
  intros He e q.
  assert (0 < a) as Ha.
  { destruct (decide (0 < a)) as [|Hn]; [done|]. rewrite Z.log2_nonpos in He; lia. }
  pose proof (Z.log2_spec a Ha) as [Hlo Hhi].
  assert (0 < 2 ^ e) as Hp by (apply Z.pow_pos_nonneg; lia).
  replace (Z.log2 a) with (52 + e) in Hlo by (unfold e; lia).
  replace (Z.succ (Z.log2 a)) with (53 + e) in Hhi by (unfold e; lia).
  rewrite Z.pow_add_r in Hlo, Hhi by lia.
  pose proof (Z.div_mod a (2 ^ e) ltac:(lia)) as Hdm.
  pose proof (Z.mod_pos_bound a (2 ^ e) Hp) as Hr.
  fold q in Hdm.
  assert (2 ^ 52 ≤ q < 2 ^ 53) as Hq.
  { split.
    - apply Z.div_le_lower_bound; lia.
    - apply Z.div_lt_upper_bound; lia. }
  split; [done|]. split; [nia|].
  unfold float64_of_nat. fold e. rewrite bool_decide_eq_false_2 by lia.
  cbv zeta. fold q. destruct (_ || _); nia.
Qed.

Lemma float64_of_nat_below (a : Z) :
  0 ≤ a → Z.log2 a - 52 ≤ 0 → float64_of_nat a = a ∧ a < 2 ^ 53.
Proof.
  intros Ha He. split.
  - unfold float64_of_nat. by rewrite bool_decide_eq_true_2.
  - destruct (decide (a = 0)) as [->|Hne]; [done|].
    apply Z.log2_lt_pow2; lia.
Qed.

Lemma float64_of_nat_mono (a b : Z) :
  0 ≤ a → a ≤ b → float64_of_nat a ≤ float64_of_nat b.
Proof.
  intros Ha Hab.
  pose proof (Z.log2_le_mono a b Hab) as Hlog.
  destruct (decide (Z.log2 b - 52 ≤ 0)) as [Hb|Hb].
  { destruct (float64_of_nat_below a Ha ltac:(lia)) as [-> _].
    destruct (float64_of_nat_below b ltac:(lia) Hb) as [-> _]. done. }
  destruct (decide (Z.log2 a = Z.log2 b)) as [Heq|Hne].
  - (* the same binade: the quotients are ordered, and so are the remainders
       when the quotients agree *)
    unfold float64_of_nat. rewrite <- Heq in *.
    rewrite !bool_decide_eq_false_2 by lia. cbv zeta.
    set (P := 2 ^ (Z.log2 a - 52)). set (half := 2 ^ (Z.log2 a - 52 - 1)).
    assert (0 < P) as HP by (apply Z.pow_pos_nonneg; lia).
    pose proof (Z.div_mod a P ltac:(lia)) as Hda.
    pose proof (Z.div_mod b P ltac:(lia)) as Hdb.
    pose proof (Z.mod_pos_bound a P HP) as Hra.
    pose proof (Z.mod_pos_bound b P HP) as Hrb.
    assert (a / P ≤ b / P) as Hq by (apply Z.div_le_mono; lia).
    destruct (decide (a / P = b / P)) as [Hsame|Hdiff].
    + rewrite <- Hsame in *.
      assert (a mod P ≤ b mod P) as Hr by lia.
      destruct (Z.odd (a / P)); rewrite ?andb_true_r, ?andb_false_r, ?orb_false_r;
        repeat case_bool_decide; cbn [orb]; nia.
    + destruct (_ || _), (_ || _); nia.
  - (* a lower binade, or below 2^53 *)
    destruct (float64_of_nat_bracket b ltac:(lia)) as (Hqb & Hbb & Hfb).
    assert (0 < 2 ^ (Z.log2 b - 52)) as Hpb by (apply Z.pow_pos_nonneg; lia).
    destruct (decide (Z.log2 a - 52 ≤ 0)) as [Hsmall|Hsmall].
    { destruct (float64_of_nat_below a Ha Hsmall) as [-> Hlt].
      assert (2 ^ 1 ≤ 2 ^ (Z.log2 b - 52)) by (apply Z.pow_le_mono_r; lia).
      nia. }
    destruct (float64_of_nat_bracket a ltac:(lia)) as (Hqa & Haa & Hfa).
    assert (0 < 2 ^ (Z.log2 a - 52)) as Hpa by (apply Z.pow_pos_nonneg; lia).
    assert (2 ^ (Z.log2 b - 52) = 2 ^ (Z.log2 a - 52) * 2 ^ (Z.log2 b - Z.log2 a))
      as Hsplit by (rewrite <- Z.pow_add_r by lia; f_equal; lia).
    assert (2 ^ 1 ≤ 2 ^ (Z.log2 b - Z.log2 a)) by (apply Z.pow_le_mono_r; lia).
    nia.
Qed.

Lemma float64_of_nat_nonneg (a : Z) : 0 ≤ a → 0 ≤ float64_of_nat a.
Proof.
  intros Ha. destruct (decide (Z.log2 a - 52 ≤ 0)) as [He|He].
  - by destruct (float64_of_nat_below a Ha He) as [-> _].
  - destruct (float64_of_nat_bracket a ltac:(lia)) as (Hq & _ & Hf).
    assert (0 < 2 ^ (Z.log2 a - 52)) by (apply Z.pow_pos_nonneg; lia). nia.
Qed.

Lemma float64_of_int_nonneg (z : Z) : 0 ≤ z → float64_of_int z = float64_of_nat z.
Proof.
  intros Hz. unfold float64_of_int. destruct z as [|p|p]; [done | | lia].
  rewrite Z.sgn_pos, Z.abs_eq by lia. lia.
Qed.

Lemma float64_of_int_neg (z : Z) : z < 0 → float64_of_int z = - float64_of_nat (- z).
Proof.
  intros Hz. unfold float64_of_int.
  rewrite Z.sgn_neg, Z.abs_neq by lia. lia.
Qed.

Lemma float64_of_int_mono (x y : Z) : x ≤ y → float64_of_int x ≤ float64_of_int y.
Proof.
  intros Hxy. destruct (decide (0 ≤ x)) as [Hx|Hx], (decide (0 ≤ y)) as [Hy|Hy].
  - rewrite !float64_of_int_nonneg by done. by apply float64_of_nat_mono.
  - lia.
  - rewrite float64_of_int_neg, float64_of_int_nonneg by lia.
    pose proof (float64_of_nat_nonneg (- x) ltac:(lia)).
    pose proof (float64_of_nat_nonneg y Hy). lia.
  - rewrite !float64_of_int_neg by lia.
    pose proof (float64_of_nat_mono (- y) (- x) ltac:(lia) ltac:(lia)). lia.
Qed.

(** Against a value that float64 holds exactly the conversion changes no
    comparison. *)
Lemma float64_of_int_lt (t v : Z) :
  Z.abs v < 2 ^ 53 → float64_of_int t < v ↔ t < v.
Proof.
  intros Hv. split.
  - intros Hlt. destruct (decide (t < v)) as [|Hge]; [done|]. exfalso.
    pose proof (float64_of_int_mono v t ltac:(lia)) as Hm.
    rewrite (float64_of_int_small v) in Hm by done. lia.
  - intros Hlt. destruct (decide (- 2 ^ 53 < t)) as [Hbig|Hbig].
    + rewrite float64_of_int_small by lia. done.
    + pose proof (float64_of_int_mono t (- 2 ^ 53) ltac:(lia)) as Hm.
      change (float64_of_int (- 2 ^ 53)) with (- 2 ^ 53) in Hm. lia.
Qed.

(** * [clean_map] *)

Lemma clean_map_lengths (image_array : image) (threshold : Z) :
  length <$> clean_map image_array threshold = image_row_lengths image_array.
Proof.
  destruct image_array as [px|px]; cbn.
  - apply NpFacts.lengths_fmap.
  - by rewrite !NpFacts.lengths_fmap.
Qed.

Lemma clean_map_gray_cell (px : grid Z) (threshold : Z) (i j : nat) :
  Np.cell (clean_map (Gray px) threshold) i j =
    (λ v, bool_decide (threshold < v)) <$> Np.cell px i j.
Proof. cbn. apply NpFacts.cell_fmap. Qed.

Lemma clean_map_multi_cell (px : grid (list Z)) (threshold : Z) (i j : nat) :
  Np.cell (clean_map (Multi px) threshold) i j =
    (λ channels, gt_threshold (np_mean channels) threshold) <$> Np.cell px i j.
Proof.
  cbn. rewrite !NpFacts.cell_fmap. by destruct (Np.cell px i j).
Qed.

Lemma Zpos_length {A} (l : list A) :
  l ≠ [] → Z.pos (Pos.of_nat (length l)) = Z.of_nat (length l).
Proof.
  intros Hne. destruct l as [|x l]; [done|]. cbn [length].
  by rewrite <- Pos.of_nat_succ, Zpos_P_of_succ_nat, Nat2Z.inj_succ.
Qed.

(** The comparison on the mean, cleared of the division. *)
Lemma gt_threshold_sum (channels : list Z) (threshold : Z) :
  channels ≠ [] →
  gt_threshold (np_mean channels) threshold = true ↔
  float64_of_int threshold * Z.of_nat (length channels)
    < sumZ (float64_of_int <$> channels).
Proof.
  intros Hne. pose proof (Zpos_length channels Hne) as Hlen.
  destruct channels as [|c channels]; [done|].
  unfold np_mean, gt_threshold.
  rewrite negb_true_iff, <- not_true_iff_false, Qle_bool_iff.
  unfold Qle. cbn [Qnum Qden inject_Z]. rewrite Hlen. lia.
Qed.

Lemma fmap_float64_small (channels : list Z) :
  Forall (λ v, Z.abs v < 2 ^ 53) channels → float64_of_int <$> channels = channels.
Proof.
  induction 1 as [|v channels Hv _ IH]; [done|].
  by rewrite fmap_cons, IH, float64_of_int_small.
Qed.




Lemma sumZ_byte_range (channels : list Z) :
  Forall (λ v, 0 ≤ v ≤ 255) channels →
  0 ≤ sumZ channels ≤ 255 * Z.of_nat (length channels).
Proof.
  induction 1 as [|v channels Hv _ IH]; cbn [sumZ foldr length]; [lia|].
  unfold sumZ in IH. lia.
Qed.




(** C8. Thresholds outside [0, 255] raise nothing: on an array with values
    in [0, 255] a negative threshold gives a mask of the array's shape that
    is True everywhere, and a threshold of 255 or more one that is False
    everywhere. *)
Theorem out_of_range_threshold (image_array : image) (threshold : Z) :
  in_byte_range image_array → has_channels image_array →
  length <$> clean_map image_array threshold = image_row_lengths image_array ∧
  (threshold < 0 →
     ∀ i j b, Np.cell (clean_map image_array threshold) i j = Some b → b = true) ∧
  (255 ≤ threshold →
     ∀ i j b, Np.cell (clean_map image_array threshold) i j = Some b → b = false).
Proof.
  intros Hrange Hchan. split; [apply clean_map_lengths|].
  destruct image_array as [px|px]; cbn [in_byte_range has_channels] in *.
  - split; intros Ht i j b; rewrite clean_map_gray_cell;
      destruct (Np.cell px i j) as [v|] eqn:Hv; try done;
      intros [= <-]; specialize (Hrange i j v Hv).
    + apply bool_decide_eq_true. lia.
    + apply bool_decide_eq_false. lia.
  - split; intros Ht i j b; rewrite clean_map_multi_cell;
      destruct (Np.cell px i j) as [channels|] eqn:Hc; try done;
      intros [= <-]; specialize (Hrange i j channels Hc);
      specialize (Hchan i j channels Hc);
      (assert (float64_of_int <$> channels = channels) as Hconv
         by (apply fmap_float64_small; eapply list.Forall_impl; [exact Hrange|];
             intros v Hv; cbn in Hv; lia));
      apply sumZ_byte_range in Hrange;
      assert (0 < Z.of_nat (length channels))
        by (destruct channels; [done | cbn [length]; lia]).
    + pose proof (float64_of_int_mono threshold (-1) ltac:(lia)) as Hm.
      change (float64_of_int (-1)) with (-1) in Hm.
      apply gt_threshold_sum; [done|]. rewrite Hconv. nia.
    + pose proof (float64_of_int_mono 255 threshold Ht) as Hm.
      change (float64_of_int 255) with 255 in Hm.
      apply not_true_is_false. rewrite gt_threshold_sum, Hconv by done. nia.
Qed.

Lemma out_of_range_threshold_witness :
  length <$> clean_map sample_rgb (-1) = image_row_lengths sample_rgb ∧
  (-1 < 0 →
     ∀ i j b, Np.cell (clean_map sample_rgb (-1)) i j = Some b → b = true) ∧
  (255 ≤ -1 →
     ∀ i j b, Np.cell (clean_map sample_rgb (-1)) i j = Some b → b = false).
Proof.
  apply (out_of_range_threshold sample_rgb (-1)).
  - intros [|[|i]] [|[|j]] channels; cbn; intros [= <-];
      repeat constructor; lia.
  - intros [|[|i]] [|[|j]] channels; cbn; by intros [= <-].
Defined.

(** * Further properties of the code *)

(** ** Counting *)

Lemma rect_lengths {A B} (a : grid A) (b : grid B) :
  length <$> a = length <$> b → Np.rect a → Np.rect b.
Proof.
  intros Hlen Hr. unfold Np.rect.
  rewrite <- (NpFacts.shape_lengths a b Hlen).
  apply Forall_lookup. intros i rb Hb.
  pose proof (f_equal (.!! i) Hlen) as Hi. rewrite !list_lookup_fmap, Hb in Hi.
  destruct (a !! i) as [ra|] eqn:Ha; [|done]. cbn in Hi.
  injection Hi as Hi. rewrite <- Hi. by apply (NpFacts.rect_row a i ra).
Qed.

Lemma cells_Forall {A} (P : A → Prop) (a : grid A) :
  (∀ i j c, Np.cell a i j = Some c → P c) ↔ Forall (Forall P) a.
Proof.
  split.
  - intros Hc. apply Forall_lookup. intros i row Hrow.
    apply Forall_lookup. intros j c Hj. apply (Hc i j).
    unfold Np.cell. by rewrite Hrow.
  - intros Hall i j c Hc. unfold Np.cell in Hc.
    destruct (a !! i) as [row|] eqn:Hrow; [|done]. cbn in Hc.
    rewrite Forall_lookup in Hall. specialize (Hall i row Hrow).
    rewrite Forall_lookup in Hall. by eapply Hall.
Qed.

Lemma np_size_rect {A} (a : grid A) :
  Np.rect a → np_size a = sumZ ((λ row, Z.of_nat (length row)) <$> a).
Proof.
  unfold np_size, Np.rect. rewrite NpFacts.shape_height.
  generalize (Np.shape a).2. intros w Hr.
  induction Hr as [|row a Hrow _ IH]; [done|].
  cbn [length fmap list_fmap sumZ foldr]. unfold sumZ in IH. rewrite <- IH. lia.
Qed.

(** In a row of terrain codes the three counts add up to the length. *)
Lemma row_counts (row : list Z) :
  Forall (λ c, c = WATER ∨ c = SHALLOW ∨ c = LAND) row →
  sumZ ((λ b : bool, if b then 1 else 0) <$> ((λ c, bool_decide (c = 0)) <$> row)) +
  sumZ ((λ b : bool, if b then 1 else 0) <$> ((λ c, bool_decide (c = 1)) <$> row)) +
  sumZ ((λ b : bool, if b then 1 else 0) <$> ((λ c, bool_decide (c = 2)) <$> row))
  = Z.of_nat (length row).
Proof.
  induction 1 as [|c row Hc _ IH]; [done|].
  cbn [length fmap list_fmap sumZ foldr]. unfold sumZ in IH.
  unfold WATER, SHALLOW, LAND in Hc.
  repeat case_bool_decide; lia.
Qed.

Lemma np_sum_cons (row : list bool) (mask : grid bool) :
  np_sum (row :: mask) =
    sumZ ((λ b : bool, if b then 1 else 0) <$> row) + np_sum mask.
Proof. done. Qed.

Lemma eq_scalar_cons (row : list Z) (a : grid Z) (v : Z) :
  Np.eq_scalar (row :: a) v =
    ((λ c, bool_decide (c = v)) <$> row) :: Np.eq_scalar a v.
Proof. done. Qed.

Lemma grid_counts (terrain : grid Z) :
  Np.rect terrain → terrain_codes terrain →
  np_sum (Np.eq_scalar terrain 0) + np_sum (Np.eq_scalar terrain 1) +
  np_sum (Np.eq_scalar terrain 2) = np_size terrain.
Proof.
  intros Hr Hcodes. rewrite np_size_rect by done. clear Hr.
  apply cells_Forall in Hcodes.
  induction Hcodes as [|row terrain Hrow _ IH]; [done|].
  rewrite !eq_scalar_cons, !np_sum_cons. pose proof (row_counts row Hrow) as Hc.
  rewrite fmap_cons. change (sumZ (?x :: ?l)) with (x + sumZ l). lia.
Qed.

(** Every cell the loops leave is a terrain code. *)
Lemma classify_codes (land_mask : grid bool) (buffer_tiles : Z) (i j : nat) (c : Z) :
  Np.rect land_mask → classify land_mask buffer_tiles i j = Some c →
  c = WATER ∨ c = SHALLOW ∨ c = LAND.
Proof.
  intros Hr Hc. unfold WATER, SHALLOW, LAND.
  apply classify_cases in Hc as [[-> _]|[(-> & _)|(-> & _)]]; auto.
Qed.

(** The land cells of the grid are the mask. *)
Lemma eq_scalar_land (land_mask : grid bool) (buffer_tiles : Z) (terrain : grid Z) :
  Np.rect land_mask →
  length <$> terrain = length <$> land_mask →
  (∀ i j, Np.cell terrain i j = classify land_mask buffer_tiles i j) →
  Np.eq_scalar terrain 2 = land_mask.
Proof.
  intros Hr Hlen Hc. apply NpFacts.grid_ext.
  - by rewrite lengths_eq_scalar.
  - intros i j. rewrite cell_eq_scalar, Hc.
    destruct (classify land_mask buffer_tiles i j) as [c|] eqn:Hcl.
    + apply classify_cases in Hcl as [[-> ->]|[(-> & -> & _)|(-> & -> & _)]];
        done.
    + destruct (Np.cell land_mask i j) as [[]|] eqn:Hb; [| |done].
      * by rewrite classify_land in Hcl.
      * destruct (classify_water land_mask buffer_tiles Hr _ _ Hb) as (d & _ & Hd).
        congruence.
Qed.

(** ** [process_map] *)

Lemma clean_map_rect (image_array : image) (threshold : Z) :
  rect_image image_array → Np.rect (clean_map image_array threshold).
Proof.
  intros Hr. pose proof (clean_map_lengths image_array threshold) as Hlen.
  destruct image_array as [px|px]; cbn [rect_image image_row_lengths] in *;
    by apply (rect_lengths px).
Qed.

(** The run of [process_map] on a rectangular pixel array, step by step. *)
Lemma process_map_run (img_array : image) (tile_size land_threshold shallow_buffer : Z) :
  rect_image img_array →
  let land_mask := clean_map img_array land_threshold in
  ∃ terrain img,
    generate_shallow_water land_mask shallow_buffer = Some terrain ∧
    terrain_to_image terrain = Some img ∧
    process_map img_array tile_size land_threshold shallow_buffer =
      Some (Report (np_sum land_mask) (np_size land_mask)
              (np_sum (Np.eq_scalar terrain 0)) (np_sum (Np.eq_scalar terrain 1))
              (np_sum (Np.eq_scalar terrain 2)) img) ∧
    length <$> terrain = length <$> land_mask ∧
    length <$> img = length <$> land_mask ∧
    (∀ i j, Np.cell terrain i j = classify land_mask shallow_buffer i j) ∧
    (∀ i j, Np.cell img i j = colour_of <$> Np.cell terrain i j).
Proof.
  intros Hr land_mask.
  assert (Np.rect land_mask) as Hrm by by apply clean_map_rect.
  destruct (generate_shallow_water_cells land_mask shallow_buffer Hrm)
    as (terrain & Hgen & Hlen & Hcells).
  assert (Np.rect terrain) as Hrt by (by apply (rect_lengths land_mask)).
  destruct (terrain_to_image_cells terrain Hrt) as (img & Himg & Hlen' & Hcells').
  exists terrain, img. unfold process_map. fold land_mask.
  rewrite Hgen. cbn. rewrite Himg. cbn. repeat split; try done. congruence.
Qed.

(** X1. On every rectangular pixel array [process_map] reaches the save:
    the three terrain counts it reports add up to the number of pixels, and
    the LAND count equals the number of land pixels reported after the
    thresholding. *)
Theorem process_map_counts (img_array : image)
    (tile_size land_threshold shallow_buffer : Z) :
  rect_image img_array →
  ∃ r, process_map img_array tile_size land_threshold shallow_buffer = Some r ∧
    water_count r + shallow_count r + land_count r = total_pixels r ∧
    land_count r = land_pixels r.
Proof.
  intros Hr.
  destruct (process_map_run img_array tile_size land_threshold shallow_buffer Hr)
    as (terrain & img & Hgen & Himg & Hrun & Hlen & _ & Hcells & _).
  pose proof (clean_map_rect img_array land_threshold Hr) as Hrm.
  eexists. split; [exact Hrun|]. cbn. split.
  - assert (np_size (clean_map img_array land_threshold) = np_size terrain) as ->
      by (unfold np_size; by rewrite (NpFacts.shape_lengths _ _ Hlen)).
    apply grid_counts; [by apply (rect_lengths _ _ (eq_sym Hlen))|].
    intros i j c. rewrite Hcells. by apply classify_codes.
  - f_equal. by eapply eq_scalar_land.
Qed.

Lemma process_map_counts_witness :
  ∃ r, process_map sample_rgb 25 128 2 = Some r ∧
    water_count r + shallow_count r + land_count r = total_pixels r ∧
    land_count r = land_pixels r.
Proof.
  apply (process_map_counts sample_rgb 25 128 2). unfold rect_image, sample_rgb, Np.rect.
  repeat constructor.
Defined.

(** X2. The image [process_map] saves has the shape of the input; a pixel
    is white exactly where [clean_map] marks land, and every pixel is
    black, cyan or white. *)
Theorem process_map_output (img_array : image)
    (tile_size land_threshold shallow_buffer : Z) :
  rect_image img_array →
  ∃ r, process_map img_array tile_size land_threshold shallow_buffer = Some r ∧
    length <$> output_img r = image_row_lengths img_array ∧
    ∀ i j,
      (Np.cell (output_img r) i j = Some (255, 255, 255) ↔
       Np.cell (clean_map img_array land_threshold) i j = Some true) ∧
      (∀ p, Np.cell (output_img r) i j = Some p →
            p = (0, 0, 0) ∨ p = (0, 255, 255) ∨ p = (255, 255, 255)).
Proof.
  intros Hr.
  destruct (process_map_run img_array tile_size land_threshold shallow_buffer Hr)
    as (terrain & img & Hgen & Himg & Hrun & Hlen & Hlen' & Hcells & Hpix).
  pose proof (clean_map_rect img_array land_threshold Hr) as Hrm.
  eexists. split; [exact Hrun|]. cbn. split.
  - by rewrite Hlen', clean_map_lengths.
  - intros i j. rewrite Hpix, Hcells.
    destruct (classify _ shallow_buffer i j) as [c|] eqn:Hc; cbn.
    + apply classify_cases in Hc as [[-> Hb]|[(-> & Hb & _)|(-> & Hb & _)]];
        [ | | | done]; rewrite Hb; (split; [split; done|]); intros p [= <-]; auto.
    + split; [|done]. split; [done|]. intros Hb.
      by rewrite (classify_land _ _ _ _ Hb) in Hc.
Qed.

Lemma process_map_output_witness :
  ∃ r, process_map sample_rgb 25 128 2 = Some r ∧
    length <$> output_img r = image_row_lengths sample_rgb ∧
    ∀ i j,
      (Np.cell (output_img r) i j = Some (255, 255, 255) ↔
       Np.cell (clean_map sample_rgb 128) i j = Some true) ∧
      (∀ p, Np.cell (output_img r) i j = Some p →
            p = (0, 0, 0) ∨ p = (0, 255, 255) ∨ p = (255, 255, 255)).
Proof.
  apply (process_map_output sample_rgb 25 128 2). unfold rect_image, sample_rgb, Np.rect.
  repeat constructor.
Defined.

(** ** More on [generate_shallow_water] *)

(** Two masks that agree on the cell and on what lies within reach of it
    classify it alike. *)
Lemma classify_ext (m1 m2 : grid bool) (r : Z) (i j : nat) :
  Np.rect m1 → Np.rect m2 →
  Np.cell m1 i j = Np.cell m2 i j →
  (0 ≤ r → land_within m1 r i j ↔ land_within m2 r i j) →
  classify m1 r i j = classify m2 r i j.
Proof.
  intros Hr1 Hr2 Hcell Hlw. apply option_eq. intros v.
  rewrite !classify_cases by done. rewrite Hcell.
  assert (0 ≤ r ∧ land_within m1 r i j ↔ 0 ≤ r ∧ land_within m2 r i j) as ->
    by (split; intros [Hk ?]; (split; [done|]); by apply Hlw).
  done.
Qed.

(** X3. The grid holds nothing but the three terrain codes, so its values
    fit the unsigned byte the array is made of. *)
Theorem terrain_holds_codes_only (land_mask : grid bool) (radius : Z) :
  Np.rect land_mask →
  ∃ terrain, generate_shallow_water land_mask radius = Some terrain ∧
    terrain_codes terrain ∧
    Forall (Forall (λ c, 0 ≤ c ≤ 255)) terrain.
Proof.
  intros Hr.
  destruct (generate_shallow_water_cells land_mask radius Hr)
    as (terrain & Hrun & _ & Hc).
  assert (terrain_codes terrain) as Hcodes.
  { intros i j c. rewrite Hc. by apply classify_codes. }
  exists terrain. repeat split; try done.
  apply cells_Forall. intros i j c Hcell.
  destruct (Hcodes i j c Hcell) as [->|[->| ->]];
    unfold WATER, SHALLOW, LAND; lia.
Qed.

Lemma terrain_holds_codes_only_witness :
  ∃ terrain, generate_shallow_water mask5 2 = Some terrain ∧
    terrain_codes terrain ∧
    Forall (Forall (λ c, 0 ≤ c ≤ 255)) terrain.
Proof.
  apply (terrain_holds_codes_only mask5 2). unfold Np.rect. repeat constructor.
Defined.

(** X4. The class of a cell depends only on the mask inside the square
    window around it: two masks of one shape that agree on every cell
    within [radius] rows and columns of [(i, j)] give that cell the same
    value. *)
Theorem window_locality (m1 m2 : grid bool) (radius : Z) (i j : nat) :
  Np.rect m1 → Np.rect m2 → 0 ≤ radius →
  (∀ ly lx : nat,
     - radius ≤ Z.of_nat ly - Z.of_nat i ≤ radius →
     - radius ≤ Z.of_nat lx - Z.of_nat j ≤ radius →
     Np.cell m1 ly lx = Np.cell m2 ly lx) →
  ∃ t1 t2,
    generate_shallow_water m1 radius = Some t1 ∧
    generate_shallow_water m2 radius = Some t2 ∧
    Np.cell t1 i j = Np.cell t2 i j.
Proof.
  intros Hr1 Hr2 Hrad Hagree.
  destruct (generate_shallow_water_cells m1 radius Hr1) as (t1 & Hrun1 & _ & Hc1).
  destruct (generate_shallow_water_cells m2 radius Hr2) as (t2 & Hrun2 & _ & Hc2).
  exists t1, t2. split; [done|]. split; [done|]. rewrite Hc1, Hc2.
  apply classify_ext; [done | done | apply Hagree; lia |].
  intros _. unfold land_within.
  split; intros (ly & lx & Hland & Hd); exists ly, lx;
    destruct (offset_in_window _ _ _ Hrad Hd) as [Hy Hx];
    (split; [|done]); [rewrite <- Hagree | rewrite Hagree]; (done || lia).
Qed.

Lemma window_locality_witness :
  ∃ t1 t2,
    generate_shallow_water mask5 1 = Some t1 ∧
    generate_shallow_water mask5_far_corner 1 = Some t2 ∧
    Np.cell t1 1 2 = Np.cell t2 1 2.
Proof.
  apply (window_locality mask5 mask5_far_corner 1 1 2);
    [unfold Np.rect; repeat constructor | unfold Np.rect; repeat constructor | lia |].
  intros ly lx Hy Hx.
  destruct ly as [|[|[|[|[|ly]]]]]; destruct lx as [|[|[|[|[|lx]]]]];
    try reflexivity; exfalso; lia.
Defined.

Lemma unit_disk (a b : Z) :
  a * a + b * b ≤ 1 * 1 →
  (a = 0 ∧ b = 0) ∨ (a = 0 ∧ (b = 1 ∨ b = -1)) ∨ (b = 0 ∧ (a = 1 ∨ a = -1)).
Proof.
  intros Hd.
  destruct (offset_in_window b a 1 ltac:(lia)) as [Hb Ha];
    [by rewrite (float64_reach_small 1) by lia|].
  assert (a = -1 ∨ a = 0 ∨ a = 1) as Ha' by lia.
  assert (b = -1 ∨ b = 0 ∨ b = 1) as Hb' by lia.
  destruct Ha' as [->|[->| ->]], Hb' as [->|[->| ->]]; lia.
Qed.

(** X5. With radius 1 the buffer is the plus-shaped neighbourhood: a cell
    is SHALLOW exactly when it is not land and the cell above, below, left
    or right of it is; land on a diagonal alone does not count. *)
Theorem radius_one_four_neighbours (land_mask : grid bool) :
  Np.rect land_mask →
  ∃ terrain, generate_shallow_water land_mask 1 = Some terrain ∧
    ∀ i j,
      Np.cell terrain i j = Some SHALLOW ↔
      Np.cell land_mask i j = Some false ∧
      (Np.cell land_mask (S i) j = Some true ∨
       Np.cell land_mask i (S j) = Some true ∨
       (∃ i', i = S i' ∧ Np.cell land_mask i' j = Some true) ∨
       (∃ j', j = S j' ∧ Np.cell land_mask i j' = Some true)).
Proof.
  intros Hr.
  destruct (generate_shallow_water_cells land_mask 1 Hr) as (terrain & Hrun & _ & Hc).
  exists terrain. split; [done|]. intros i j. rewrite Hc, classify_cases by done.
  unfold SHALLOW, land_within. rewrite (float64_reach_small 1) by lia. split.
  - intros [[? _]|[(_ & Hb & _ & ly & lx & Hland & Hd)|(? & _)]]; [done | | done].
    split; [done|]. apply unit_disk in Hd as [[Hx Hy]|[[Hx Hy]|[Hy Hx]]].
    + replace ly with i in Hland by lia. replace lx with j in Hland by lia.
      congruence.
    + replace lx with j in Hland by lia. destruct Hy as [Hy|Hy].
      * left. by replace (S i) with ly by lia.
      * right; right; left. exists ly. split; [lia|done].
    + replace ly with i in Hland by lia. destruct Hx as [Hx|Hx].
      * right; left. by replace (S j) with lx by lia.
      * right; right; right. exists lx. split; [lia|done].
  - intros [Hb Hn]. right; left. repeat split; [done | lia |].
    destruct Hn as [Hn|[Hn|[(i' & -> & Hn)|(j' & -> & Hn)]]];
      [exists (S i), j | exists i, (S j) | exists i', j | exists i, j'];
      (split; [done|]); lia.
Qed.

Lemma radius_one_four_neighbours_witness :
  ∃ terrain, generate_shallow_water mask5 1 = Some terrain ∧
    ∀ i j,
      Np.cell terrain i j = Some SHALLOW ↔
      Np.cell mask5 i j = Some false ∧
      (Np.cell mask5 (S i) j = Some true ∨
       Np.cell mask5 i (S j) = Some true ∨
       (∃ i', i = S i' ∧ Np.cell mask5 i' j = Some true) ∨
       (∃ j', j = S j' ∧ Np.cell mask5 i j' = Some true)).
Proof.
  apply (radius_one_four_neighbours mask5). unfold Np.rect. repeat constructor.
Defined.

(** X6. A mask without land gives, for every radius, the all-WATER grid
    [np.zeros] started from. *)
Theorem no_land_all_water (land_mask : grid bool) (radius : Z) :
  Np.rect land_mask →
  (∀ i j, Np.cell land_mask i j ≠ Some true) →
  generate_shallow_water land_mask radius =
    Some (Np.zeros WATER (Np.shape land_mask).1 (Np.shape land_mask).2).
Proof.
  intros Hr Hnone.
  destruct (generate_shallow_water_cells land_mask radius Hr)
    as (terrain & Hrun & Hlen & Hc).
  rewrite Hrun. f_equal. apply NpFacts.grid_ext.
  - by rewrite NpFacts.lengths_zeros.
  - intros i j. rewrite Hc.
    destruct (Np.cell land_mask i j) as [b|] eqn:Hb.
    + assert (is_Some (Np.cell land_mask i j)) as Hs by eauto.
      apply NpFacts.cell_is_Some in Hs as [Hi Hj]; [|done].
      rewrite NpFacts.cell_zeros by done. apply classify_cases; [done|].
      right; right. destruct b; [by destruct (Hnone i j)|].
      repeat split; try done. intros [_ (ly & lx & Hland & _)].
      by destruct (Hnone ly lx).
    + rewrite classify_outside by done. symmetry.
      apply eq_None_not_Some. intros Hs.
      apply (NpFacts.lengths_cell_is_Some _ land_mask) in Hs;
        [|by apply NpFacts.lengths_zeros].
      rewrite Hb in Hs. by destruct Hs.
Qed.

Lemma no_land_all_water_witness :
  generate_shallow_water water3 2 =
    Some (Np.zeros WATER (Np.shape water3).1 (Np.shape water3).2).
Proof.
  apply (no_land_all_water water3 2).
  - unfold Np.rect. repeat constructor.
  - intros [|[|i]] [|[|[|j]]]; discriminate.
Defined.

(** X7. Once the radius reaches the diagonal of the grid, a single land
    cell is enough to leave no WATER at all. *)
Theorem large_radius_no_water (land_mask : grid bool) (radius : Z) (ly lx : nat) :
  Np.rect land_mask → 0 ≤ radius →
  ((Np.shape land_mask).1 - 1) * ((Np.shape land_mask).1 - 1) +
  ((Np.shape land_mask).2 - 1) * ((Np.shape land_mask).2 - 1) ≤ radius * radius →
  Np.cell land_mask ly lx = Some true →
  ∃ terrain, generate_shallow_water land_mask radius = Some terrain ∧
    ∀ i j, Np.cell terrain i j ≠ Some WATER.
Proof.
  intros Hr Hrad Hdiag Hland.
  destruct (generate_shallow_water_cells land_mask radius Hr)
    as (terrain & Hrun & _ & Hc).
  exists terrain. split; [done|]. intros i j. rewrite Hc, classify_cases by done.
  unfold WATER. intros [[? _]|[(? & _)|(_ & Hb & Hn)]]; [done | done |].
  apply Hn. split; [done|]. exists ly, lx. split; [done|].
  assert (is_Some (Np.cell land_mask ly lx)) as Hs1 by eauto.
  assert (is_Some (Np.cell land_mask i j)) as Hs2 by eauto.
  apply NpFacts.cell_is_Some in Hs1 as [Hy Hx]; [|done].
  apply NpFacts.cell_is_Some in Hs2 as [Hi Hj]; [|done].
  revert Hdiag Hy Hx Hi Hj.
  generalize (Np.shape land_mask).1 (Np.shape land_mask).2. intros h w Hdiag Hy Hx Hi Hj.
  assert ((Z.of_nat lx - Z.of_nat j) * (Z.of_nat lx - Z.of_nat j)
            ≤ (w - 1) * (w - 1)) by nia.
  assert ((Z.of_nat ly - Z.of_nat i) * (Z.of_nat ly - Z.of_nat i)
            ≤ (h - 1) * (h - 1)) by nia.
  pose proof (float64_reach_square radius Hrad). lia.
Qed.

Lemma large_radius_no_water_witness :
  ∃ terrain, generate_shallow_water mask5 6 = Some terrain ∧
    ∀ i j, Np.cell terrain i j ≠ Some WATER.
Proof.
  apply (large_radius_no_water mask5 6 2 2);
    [unfold Np.rect; repeat constructor | lia | vm_compute; discriminate | reflexivity].
Defined.

(** X8. Adding land to the mask never turns a cell back into WATER: if a
    second mask of the same shape has land wherever the first has, every
    cell that is SHALLOW or LAND for the first is SHALLOW or LAND for the
    second, and LAND stays LAND. *)
Theorem more_land_less_water (m1 m2 : grid bool) (radius : Z) :
  Np.rect m1 → Np.rect m2 → mask_le m1 m2 →
  ∃ t1 t2,
    generate_shallow_water m1 radius = Some t1 ∧
    generate_shallow_water m2 radius = Some t2 ∧
    ∀ i j,
      (Np.cell t1 i j = Some LAND → Np.cell t2 i j = Some LAND) ∧
      (Np.cell t1 i j = Some SHALLOW →
         Np.cell t2 i j = Some SHALLOW ∨ Np.cell t2 i j = Some LAND) ∧
      (Np.cell t2 i j = Some WATER → Np.cell t1 i j = Some WATER).
Proof.
  intros Hr1 Hr2 [Hlen Hle].
  destruct (generate_shallow_water_cells m1 radius Hr1) as (t1 & Hrun1 & _ & Hc1).
  destruct (generate_shallow_water_cells m2 radius Hr2) as (t2 & Hrun2 & _ & Hc2).
  exists t1, t2. split; [done|]. split; [done|]. intros i j.
  rewrite Hc1, Hc2, !classify_cases by done. unfold LAND, SHALLOW, WATER.
  assert (land_within m1 radius i j → land_within m2 radius i j) as Hlw.
  { intros (ly & lx & Hland & Hd). exists ly, lx. split; [by apply Hle|done]. }
  assert (Np.cell m1 i j = Some false →
          Np.cell m2 i j = Some true ∨ Np.cell m2 i j = Some false) as Hboth.
  { intros Hb. assert (is_Some (Np.cell m2 i j)) as [[] ?]; [|by left|by right].
    apply (NpFacts.lengths_cell_is_Some m1 m2 i j Hlen). eauto. }
  assert (Np.cell m2 i j = Some false →
          Np.cell m1 i j = Some false) as Hback.
  { intros Hb. assert (is_Some (Np.cell m1 i j)) as [[] Hb1]; [| |done].
    - apply (NpFacts.lengths_cell_is_Some m1 m2 i j Hlen). eauto.
    - apply Hle in Hb1. congruence. }
  split; [|split].
  - intros [[_ Hb]|[(? & _)|(? & _)]]; [|done|done]. left. split; [done|by apply Hle].
  - intros [[? _]|[(_ & Hb & Hk & Hl)|(? & _)]]; [done| |done].
    destruct (Hboth Hb) as [Hb2|Hb2].
    + right. by left.
    + left. right; left. repeat split; try done. by apply Hlw.
  - intros [[? _]|[(? & _)|(_ & Hb & Hn)]]; [done|done|].
    right; right. repeat split; [by apply Hback|].
    intros [Hk Hl]. apply Hn. split; [done|by apply Hlw].
Qed.

Lemma more_land_less_water_witness :
  ∃ t1 t2,
    generate_shallow_water mask5 1 = Some t1 ∧
    generate_shallow_water mask5_far_corner 1 = Some t2 ∧
    ∀ i j,
      (Np.cell t1 i j = Some LAND → Np.cell t2 i j = Some LAND) ∧
      (Np.cell t1 i j = Some SHALLOW →
         Np.cell t2 i j = Some SHALLOW ∨ Np.cell t2 i j = Some LAND) ∧
      (Np.cell t2 i j = Some WATER → Np.cell t1 i j = Some WATER).
Proof.
  apply (more_land_less_water mask5 mask5_far_corner 1);
    [unfold Np.rect; repeat constructor | unfold Np.rect; repeat constructor |].
  split; [reflexivity|].
  intros [|[|[|[|[|i]]]]] [|[|[|[|[|j]]]]]; cbn; try discriminate; done.
Defined.

(** ** More on [clean_map] *)

Lemma gt_threshold_mono (brightness : option Q) (t1 t2 : Z) :
  t1 ≤ t2 → gt_threshold brightness t2 = true → gt_threshold brightness t1 = true.
Proof.
  intros Ht. destruct brightness as [b|]; [|done]. cbn.
  rewrite !negb_true_iff, <- !not_true_iff_false, !Qle_bool_iff.
  intros Hn Hle. apply Hn. eapply Qle_trans; [exact Hle|].
  rewrite <- Zle_Qle. by apply float64_of_int_mono.
Qed.

(** X9. Raising the threshold only removes land: a cell that is land at
    the higher threshold is land at every lower one. *)
Theorem threshold_monotone (image_array : image) (t1 t2 : Z) (i j : nat) :
  t1 ≤ t2 →
  Np.cell (clean_map image_array t2) i j = Some true →
  Np.cell (clean_map image_array t1) i j = Some true.
Proof.
  intros Ht. destruct image_array as [px|px].
  - rewrite !clean_map_gray_cell. destruct (Np.cell px i j) as [v|]; [|done].
    cbn. intros [= Hv]. f_equal. apply bool_decide_eq_true in Hv.
    apply bool_decide_eq_true. lia.
  - rewrite !clean_map_multi_cell. destruct (Np.cell px i j) as [channels|]; [|done].
    cbn. intros [= Hv]. f_equal. by apply (gt_threshold_mono _ t1 t2).
Qed.

Lemma threshold_monotone_witness :
  Np.cell (clean_map sample_rgb 100) 0 1 = Some true.
Proof.
  apply (threshold_monotone sample_rgb 100 200 0 1); [lia | reflexivity].
Defined.

Lemma sumZ_replicate (n : nat) (v : Z) : sumZ (replicate n v) = Z.of_nat n * v.
Proof.
  induction n as [|n IH]; [done|].
  cbn [replicate]. change (sumZ (v :: ?l)) with (v + sumZ l). rewrite IH. lia.
Qed.

(** X10. A pixel whose channels all carry the same value is treated as the
    single-channel pixel of that value: an array of shape (h, w, n + 1)
    with equal channels gives the mask of the (h, w) array, as long as
    float64 adds the [n + 1] copies of each value without rounding. *)
Theorem equal_channels_as_gray (px : grid Z) (n : nat) (threshold : Z) :
  (∀ i j v, Np.cell px i j = Some v → Z.of_nat (S n) * Z.abs v < 2 ^ 53) →
  clean_map (Multi (fmap (M := list) (fmap (M := list) (replicate (S n))) px))
    threshold
  = clean_map (Gray px) threshold.
Proof.
  intros Hsmall. apply cells_Forall in Hsmall.
  cbn [clean_map]. rewrite <- !list_fmap_compose.
  apply Forall_fmap_ext. eapply list.Forall_impl; [exact Hsmall|].
  intros row Hrow. cbn [compose]. rewrite <- !list_fmap_compose.
  apply Forall_fmap_ext. eapply list.Forall_impl; [exact Hrow|].
  intros v Hv. cbn [compose]. cbn beta in Hv.
  assert (Z.abs v < 2 ^ 53) as Habs by nia.
  apply eq_true_iff_eq. rewrite gt_threshold_sum by done.
  rewrite bool_decide_eq_true, fmap_replicate, sumZ_replicate, length_replicate.
  rewrite (float64_of_int_small v) by done.
  rewrite <- (float64_of_int_lt threshold v Habs). nia.
Qed.

Lemma equal_channels_as_gray_witness :
  clean_map (Multi (fmap (M := list) (fmap (M := list) (replicate 3))
                      [[200; 50]; [128; 129]])) 128
  = clean_map (Gray [[200; 50]; [128; 129]]) 128.
Proof.
  apply (equal_channels_as_gray [[200; 50]; [128; 129]] 2 128).
  intros [|[|i]] [|[|j]] v; cbn; intros [= <-]; by vm_compute.
Defined.

Lemma sumZ_Permutation (l k : list Z) : l ≡ₚ k → sumZ l = sumZ k.
Proof.
  induction 1 as [|x l k _ IH|x y l|l k m _ IH1 _ IH2]; [done | | | congruence].
  - change (x + sumZ l = x + sumZ k). by rewrite IH.
  - change (y + (x + sumZ l) = x + (y + sumZ l)). lia.
Qed.

Lemma np_mean_Permutation (l k : list Z) : l ≡ₚ k → np_mean l = np_mean k.
Proof.
  intros Hp. unfold np_mean.
  rewrite (sumZ_Permutation (float64_of_int <$> l) (float64_of_int <$> k))
    by (by apply fmap_Permutation).
  rewrite (Permutation_length Hp).
  destruct l, k; try done.
  - by apply Permutation_nil_cons in Hp.
  - symmetry in Hp. by apply Permutation_nil_cons in Hp.
Qed.

(** X11. The order of the channels does not matter where float64 adds
    them up without rounding: two arrays whose pixels hold the same channel
    values in any order, of absolute values adding up to less than [2^53],
    give the same mask. *)
Theorem channel_order_irrelevant (px1 px2 : grid (list Z)) (threshold : Z) :
  Forall (Forall exact_sum) px1 →
  Forall2 (Forall2 (≡ₚ)) px1 px2 →
  clean_map (Multi px1) threshold = clean_map (Multi px2) threshold.
Proof.
  intros _ Hp. cbn [clean_map]. rewrite <- !list_fmap_compose.
  induction Hp as [|row1 row2 px1 px2 Hrow _ IH]; [done|].
  rewrite !fmap_cons, IH. f_equal. cbn [compose].
  rewrite <- !list_fmap_compose.
  induction Hrow as [|c1 c2 row1 row2 Hc _ IHrow]; [done|].
  rewrite !fmap_cons, IHrow. f_equal. cbn [compose].
  by rewrite (np_mean_Permutation c1 c2 Hc).
Qed.

Lemma channel_order_irrelevant_witness :
  clean_map (Multi [[[12; 200; 7]; [0; 255; 0]]]) 128 =
  clean_map (Multi [[[200; 7; 12]; [255; 0; 0]]]) 128.
Proof.
  apply (channel_order_irrelevant [[[12; 200; 7]; [0; 255; 0]]]
           [[[200; 7; 12]; [255; 0; 0]]] 128).
  { repeat apply Forall_cons; try apply Forall_nil; by vm_compute. }
  apply Forall2_cons; [|apply Forall2_nil].
  apply Forall2_cons; [|apply Forall2_cons; [|apply Forall2_nil]].
  - apply (perm_trans (l' := [200; 12; 7])); [apply perm_swap|].
    apply perm_skip, perm_swap.
  - apply perm_swap.
Defined.

(** ** More on [terrain_to_image] *)

Lemma colour_of_inj (c1 c2 : Z) :
  (c1 = WATER ∨ c1 = SHALLOW ∨ c1 = LAND) →
  (c2 = WATER ∨ c2 = SHALLOW ∨ c2 = LAND) →
  colour_of c1 = colour_of c2 → c1 = c2.
Proof.
  unfold WATER, SHALLOW, LAND.
  intros [->|[->| ->]] [->|[->| ->]]; done.
Qed.

(** X12. The encoding loses nothing on terrain grids: two grids over the
    three terrain codes that encode to the same image are the same grid. *)
Theorem encode_injective (t1 t2 : grid Z) (img : grid rgb) :
  Np.rect t1 → Np.rect t2 → terrain_codes t1 → terrain_codes t2 →
  terrain_to_image t1 = Some img → terrain_to_image t2 = Some img →
  t1 = t2.
Proof.
  intros Hr1 Hr2 Hc1 Hc2 Himg1 Himg2.
  destruct (terrain_to_image_cells t1 Hr1) as (img1 & Hrun1 & Hlen1 & Hpix1).
  destruct (terrain_to_image_cells t2 Hr2) as (img2 & Hrun2 & Hlen2 & Hpix2).
  assert (img1 = img) as -> by congruence.
  assert (img2 = img) as -> by congruence.
  apply NpFacts.grid_ext; [congruence|]. intros i j.
  specialize (Hpix1 i j). rewrite Hpix2 in Hpix1.
  destruct (Np.cell t1 i j) as [c1|] eqn:Hcell1,
           (Np.cell t2 i j) as [c2|] eqn:Hcell2; cbn in Hpix1; try done.
  f_equal. injection Hpix1 as Hcol. symmetry.
  apply colour_of_inj; [by apply (Hc2 i j) | by apply (Hc1 i j) | done].
Qed.

Lemma encode_injective_witness :
  [[WATER; SHALLOW]; [LAND; WATER]] = [[0; 1]; [2; 0]].
Proof.
  apply (encode_injective [[WATER; SHALLOW]; [LAND; WATER]] [[0; 1]; [2; 0]]
           [[(0, 0, 0); (0, 255, 255)]; [(255, 255, 255); (0, 0, 0)]]).
  - unfold Np.rect. repeat constructor.
  - unfold Np.rect. repeat constructor.
  - intros [|[|i]] [|[|j]] c; cbn; intros [= <-]; auto.
  - intros [|[|i]] [|[|j]] c; cbn; intros [= <-]; auto.
  - reflexivity.
  - reflexivity.
Defined.

(** ** Round trip, union and flip *)

(** X13. The mask can be read back from the grid as its LAND cells, and
    generating again from the mask read back gives the same grid. *)
Theorem land_mask_round_trip (land_mask : grid bool) (radius : Z) :
  Np.rect land_mask →
  ∃ terrain, generate_shallow_water land_mask radius = Some terrain ∧
    Np.eq_scalar terrain LAND = land_mask ∧
    generate_shallow_water (Np.eq_scalar terrain LAND) radius = Some terrain.
Proof.
  intros Hr.
  destruct (generate_shallow_water_cells land_mask radius Hr)
    as (terrain & Hrun & Hlen & Hc).
  exists terrain. split; [done|].
  assert (Np.eq_scalar terrain LAND = land_mask) as ->; [|done].
  by apply (eq_scalar_land land_mask radius).
Qed.

Lemma land_mask_round_trip_witness :
  ∃ terrain, generate_shallow_water mask5 2 = Some terrain ∧
    Np.eq_scalar terrain LAND = mask5 ∧
    generate_shallow_water (Np.eq_scalar terrain LAND) 2 = Some terrain.
Proof.
  apply (land_mask_round_trip mask5 2). unfold Np.rect. repeat constructor.
Defined.

Lemma mask_or_lengths (m1 m2 : grid bool) :
  length <$> m1 = length <$> m2 → length <$> mask_or m1 m2 = length <$> m1.
Proof.
  intros Hlen. apply list_eq. intros i.
  pose proof (f_equal (.!! i) Hlen) as Hi. unfold mask_or.
  rewrite !list_lookup_fmap in *. rewrite lookup_zip_with.
  destruct (m1 !! i) as [r1|], (m2 !! i) as [r2|]; simplify_eq/=; [|done].
  rewrite length_zip_with. f_equal. lia.
Qed.

Lemma mask_or_cell (m1 m2 : grid bool) (i j : nat) :
  Np.cell (mask_or m1 m2) i j =
    b1 ← Np.cell m1 i j; b2 ← Np.cell m2 i j; Some (b1 || b2).
Proof.
  unfold Np.cell, mask_or. rewrite lookup_zip_with.
  destruct (m1 !! i) as [r1|]; cbn; [|done].
  destruct (m2 !! i) as [r2|]; cbn.
  - rewrite lookup_zip_with. by destruct (r1 !! j), (r2 !! j).
  - by destruct (r1 !! j).
Qed.

(** X14. The buffer of a union is the union of the buffers: for two masks
    of one shape, a cell of the grid of their cell-wise "or" is WATER
    exactly when it is WATER for both masks, and LAND exactly when it is
    LAND for one of them. *)
Theorem union_of_masks (m1 m2 : grid bool) (radius : Z) :
  Np.rect m1 → Np.rect m2 → length <$> m1 = length <$> m2 →
  ∃ t1 t2 t,
    generate_shallow_water m1 radius = Some t1 ∧
    generate_shallow_water m2 radius = Some t2 ∧
    generate_shallow_water (mask_or m1 m2) radius = Some t ∧
    ∀ i j,
      (Np.cell t i j = Some WATER ↔
       Np.cell t1 i j = Some WATER ∧ Np.cell t2 i j = Some WATER) ∧
      (Np.cell t i j = Some LAND ↔
       Np.cell t1 i j = Some LAND ∨ Np.cell t2 i j = Some LAND).
Proof.
  intros Hr1 Hr2 Hlen.
  assert (Np.rect (mask_or m1 m2)) as Hr
    by (apply (rect_lengths m1); [by rewrite mask_or_lengths | done]).
  destruct (generate_shallow_water_cells m1 radius Hr1) as (t1 & Hrun1 & _ & Hc1).
  destruct (generate_shallow_water_cells m2 radius Hr2) as (t2 & Hrun2 & _ & Hc2).
  destruct (generate_shallow_water_cells _ radius Hr) as (t & Hrun & _ & Hc).
  exists t1, t2, t. repeat (split; [done|]). intros i j.
  rewrite Hc, Hc1, Hc2, !classify_cases by done. unfold WATER, LAND.
  pose proof (NpFacts.lengths_cell_is_Some m1 m2 i j Hlen) as Hboth.
  assert (land_within (mask_or m1 m2) radius i j ↔
          land_within m1 radius i j ∨ land_within m2 radius i j) as Hlw.
  { unfold land_within. split.
    - intros (ly & lx & Hland & Hd). rewrite mask_or_cell in Hland.
      destruct (Np.cell m1 ly lx) as [[]|] eqn:H1,
               (Np.cell m2 ly lx) as [[]|] eqn:H2; try done;
        try (by left; exists ly, lx); by right; exists ly, lx.
    - intros [(ly & lx & Hland & Hd)|(ly & lx & Hland & Hd)];
        exists ly, lx; (split; [|done]); rewrite mask_or_cell;
        pose proof (NpFacts.lengths_cell_is_Some m1 m2 ly lx Hlen) as Hs;
        rewrite Hland in *; cbn.
      + destruct (proj1 Hs ltac:(eauto)) as [b ->]. done.
      + destruct (proj2 Hs ltac:(eauto)) as [b ->]. cbn. by rewrite orb_true_r. }
  rewrite Hlw, mask_or_cell.
  destruct (Np.cell m1 i j) as [[]|] eqn:H1, (Np.cell m2 i j) as [[]|] eqn:H2;
    cbn; try (exfalso; destruct Hboth as [Ha Hb];
              first [by destruct Ha; eauto | by destruct Hb; eauto]);
    intuition (try done; try congruence).
Qed.

Lemma union_of_masks_witness :
  ∃ t1 t2 t,
    generate_shallow_water mask5 1 = Some t1 ∧
    generate_shallow_water mask5_far_corner 1 = Some t2 ∧
    generate_shallow_water (mask_or mask5 mask5_far_corner) 1 = Some t ∧
    ∀ i j,
      (Np.cell t i j = Some WATER ↔
       Np.cell t1 i j = Some WATER ∧ Np.cell t2 i j = Some WATER) ∧
      (Np.cell t i j = Some LAND ↔
       Np.cell t1 i j = Some LAND ∨ Np.cell t2 i j = Some LAND).
Proof.
  apply (union_of_masks mask5 mask5_far_corner 1);
    [unfold Np.rect; repeat constructor | unfold Np.rect; repeat constructor |
     reflexivity].
Defined.

Lemma flipud_cell {A} (a : grid A) (i j : nat) :
  (i < length a)%nat →
  Np.cell (flipud a) i j = Np.cell a (length a - S i) j.
Proof. intros Hi. unfold Np.cell, flipud. by rewrite reverse_lookup. Qed.

Lemma flipud_cell_outside {A} (a : grid A) (i j : nat) :
  (length a ≤ i)%nat → Np.cell (flipud a) i j = None.
Proof.
  intros Hi. unfold Np.cell, flipud.
  rewrite (proj2 (lookup_ge_None _ _)); [done|]. by rewrite length_reverse.
Qed.

Lemma flipud_rect {A} (a : grid A) : Np.rect a → Np.rect (flipud a).
Proof.
  intros Hr. unfold Np.rect, flipud in *.
  assert ((Np.shape (reverse a)).2 = (Np.shape a).2) as ->.
  { unfold Np.shape. cbn [snd]. f_equal.
    destruct (reverse a) as [|row ra] eqn:Hrev.
    - apply (f_equal reverse) in Hrev. rewrite reverse_involutive in Hrev.
      by subst a.
    - assert (row ∈ a) as Hin.
      { apply elem_of_reverse. rewrite Hrev. by left. }
      rewrite list.Forall_forall in Hr. specialize (Hr row Hin).
      unfold Np.shape in Hr. cbn [snd head from_option] in *. lia. }
  by apply Forall_reverse.
Qed.

Lemma flipud_land_within (land_mask : grid bool) (k : Z) (i j : nat) :
  (i < length land_mask)%nat →
  land_within (flipud land_mask) k i j ↔
  land_within land_mask k (length land_mask - S i) j.
Proof.
  intros Hi. unfold land_within. split.
  - intros (ly & lx & Hland & Hd).
    destruct (decide (ly < length land_mask)%nat) as [Hy|Hy];
      [|by rewrite flipud_cell_outside in Hland by lia].
    rewrite flipud_cell in Hland by done.
    exists (length land_mask - S ly)%nat, lx. split; [done|].
    replace (Z.of_nat (length land_mask - S ly) - Z.of_nat (length land_mask - S i))
      with (- (Z.of_nat ly - Z.of_nat i)) by lia.
    by rewrite Z.mul_opp_opp.
  - intros (ly & lx & Hland & Hd).
    assert (ly < length land_mask)%nat as Hy.
    { unfold Np.cell in Hland.
      destruct (land_mask !! ly) eqn:Hrow; [|done]. by eapply lookup_lt_Some. }
    exists (length land_mask - S ly)%nat, lx. split.
    + rewrite flipud_cell by lia.
      by replace (length land_mask - S (length land_mask - S ly))%nat with ly by lia.
    + replace (Z.of_nat (length land_mask - S ly) - Z.of_nat i)
        with (- (Z.of_nat ly - Z.of_nat (length land_mask - S i))) by lia.
      by rewrite Z.mul_opp_opp.
Qed.

(** X15. The scan has no vertical bias: the grid of the mask turned upside
    down is the grid of the mask turned upside down. *)
Theorem flipud_commutes (land_mask : grid bool) (radius : Z) :
  Np.rect land_mask →
  ∃ terrain, generate_shallow_water land_mask radius = Some terrain ∧
    generate_shallow_water (flipud land_mask) radius = Some (flipud terrain).
Proof.
  intros Hr. pose proof (flipud_rect land_mask Hr) as Hrf.
  destruct (generate_shallow_water_cells land_mask radius Hr)
    as (terrain & Hrun & Hlen & Hc).
  destruct (generate_shallow_water_cells (flipud land_mask) radius Hrf)
    as (flipped & Hrunf & Hlenf & Hcf).
  exists terrain. split; [done|]. rewrite Hrunf. f_equal.
  assert (length terrain = length land_mask) as Hh
    by (apply (f_equal length) in Hlen; by rewrite !length_fmap in Hlen).
  apply NpFacts.grid_ext.
  - rewrite Hlenf. unfold flipud. by rewrite !fmap_reverse, Hlen.
  - intros i j. rewrite Hcf.
    destruct (decide (i < length land_mask)%nat) as [Hi|Hi].
    + rewrite flipud_cell by lia. rewrite Hc, Hh.
      apply option_eq. intros v. rewrite !classify_cases by done.
      by rewrite flipud_cell, flipud_land_within by done.
    + rewrite flipud_cell_outside by lia.
      apply classify_outside. apply flipud_cell_outside. lia.
Qed.

Lemma flipud_commutes_witness :
  ∃ terrain, generate_shallow_water mask5_far_corner 2 = Some terrain ∧
    generate_shallow_water (flipud mask5_far_corner) 2 = Some (flipud terrain).
Proof.
  apply (flipud_commutes mask5_far_corner 2). unfold Np.rect. repeat constructor.
Defined.

(** ** The minimum kept by the scan *)

Lemma py_min_below (a b : distance) (n : Z) :
  dist_below (py_min a b) n ↔ dist_below a n ∨ dist_below b n.
Proof.
  unfold py_min. destruct a as [|p], b as [|q]; cbn; try tauto.
  case_bool_decide; cbn; lia.
Qed.

Lemma for_each_below (Q : Z → Z → Prop) (l : list Z)
    (body : Z → distance → option distance) (d0 : distance) :
  (∀ i d, i ∈ l → ∃ d', body i d = Some d' ∧
     ∀ n, dist_below d' n ↔ dist_below d n ∨ Q i n) →
  ∃ d', for_each l body d0 = Some d' ∧
     ∀ n, dist_below d' n ↔ dist_below d0 n ∨ ∃ i, i ∈ l ∧ Q i n.
Proof.
  revert d0. induction l as [|i l IH]; intros d0 Hbody.
  - exists d0. split; [done|]. intros n. split; [by left|].
    intros [?|(i & Hi & _)]; [done|]. by apply elem_of_nil in Hi.
  - destruct (Hbody i d0) as (d1 & Hd1 & Hb1); [left|].
    destruct (IH d1) as (d' & Hd' & Hb').
    { intros j d Hj. apply Hbody. by right. }
    exists d'. cbn [for_each]. rewrite Hd1. cbn. split; [done|].
    intros n. rewrite Hb', Hb1. split.
    + intros [[?|?]|(j & Hj & ?)]; [by left | right; exists i | right; exists j];
        (split; [|done]); [left | by right].
    + intros [?|(j & Hj & HQ)]; [by left; left|].
      apply elem_of_cons in Hj as [->|Hj]; [by left; right | right; eauto].
Qed.

Lemma scan_window_below (land_mask : grid bool) (r y x : Z) :
  Np.rect land_mask →
  ∃ d, scan_window land_mask (Np.shape land_mask).1 (Np.shape land_mask).2 r y x
         = Some d ∧
    ∀ n, dist_below d n ↔
         ∃ dy dx, land_at_offset land_mask r y x dy dx ∧ dx * dx + dy * dy ≤ n.
Proof.
  intros Hr. unfold scan_window.
  set (win := range (- r) (r + 1)).
  set (here dy dx :=
         0 ≤ y + dy < (Np.shape land_mask).1 ∧ 0 ≤ x + dx < (Np.shape land_mask).2 ∧
         Np.cell land_mask (Z.to_nat (y + dy)) (Z.to_nat (x + dx)) = Some true).
  edestruct (for_each_below
    (λ dy n, ∃ dx, dx ∈ win ∧ here dy dx ∧ dx * dx + dy * dy ≤ n) win)
    as (d & Hd & Hb); [|exists d; split; [exact Hd|]].
  - intros dy d0 _.
    edestruct (for_each_below (λ dx n, here dy dx ∧ dx * dx + dy * dy ≤ n) win)
      as (d & Hd & Hb); [|exists d; split; [exact Hd|exact Hb]].
    intros dx d1 _. cbn zeta. unfold here.
    destruct (decide (0 ≤ y + dy < (Np.shape land_mask).1)) as [Hy|Hy];
      [rewrite (bool_decide_eq_true_2 _ Hy)|rewrite (bool_decide_eq_false_2 _ Hy)];
      cbn [andb].
    2:{ exists d1. split; [done|]. intuition (try done; try lia). }
    destruct (decide (0 ≤ x + dx < (Np.shape land_mask).2)) as [Hx|Hx];
      [rewrite (bool_decide_eq_true_2 _ Hx)|rewrite (bool_decide_eq_false_2 _ Hx)];
      cbn [andb].
    2:{ exists d1. split; [done|]. intuition (try done; try lia). }
    destruct (NpFacts.getitem_cell land_mask _ _ Hr Hy Hx) as [Hget [b Hb]].
    rewrite Hb. rewrite Hb in Hget. cbn. destruct b.
    + eexists; split; [done|]. intros n. rewrite py_min_below.
      unfold np_sqrt. cbn. intuition (try done; try lia).
    + exists d1. split; [done|]. rewrite <- Hget. intuition (try done; try lia).
  - intros n. rewrite Hb. cbn. subst win. unfold land_at_offset, here. split.
    + intros [?|(dy & Hdy & dx & Hdx & Hhere & Hle)]; [done|].
      apply elem_of_range in Hdy, Hdx. exists dy, dx.
      split; [|done]. repeat split; try lia; apply Hhere.
    + intros (dy & dx & (Hdy & Hdx & Hhere) & Hle). right. exists dy.
      rewrite elem_of_range. split; [lia|]. exists dx.
      rewrite elem_of_range. split; [lia|done].
Qed.

(** X16. The scan of a window ends with the distance to the nearest land
    cell of the clipped window: [inf] exactly when the window holds no
    land, and otherwise the square root of the least [dx² + dy²] over the
    land cells of the window. *)
Theorem scan_window_minimum (land_mask : grid bool) (r y x : Z) :
  Np.rect land_mask →
  ∃ d, scan_window land_mask (Np.shape land_mask).1 (Np.shape land_mask).2 r y x
         = Some d ∧
    (d = inf ↔ ∀ dy dx, ¬ land_at_offset land_mask r y x dy dx) ∧
    (∀ n, d = sqrt_of n →
       (∃ dy dx, land_at_offset land_mask r y x dy dx ∧ dx * dx + dy * dy = n) ∧
       (∀ dy dx, land_at_offset land_mask r y x dy dx → n ≤ dx * dx + dy * dy)).
Proof.
  intros Hr. destruct (scan_window_below land_mask r y x Hr) as (d & Hd & Hb).
  exists d. split; [done|]. split.
  - split.
    + intros -> dy dx Hland. apply (Hb (dx * dx + dy * dy)).
      exists dy, dx. split; [done|lia].
    + intros Hnone. destruct d as [|n]; [done|]. exfalso.
      destruct (proj1 (Hb n)) as (dy & dx & Hland & _); [cbn; lia|].
      by apply (Hnone dy dx).
  - intros n ->. cbn in Hb. split.
    + destruct (proj1 (Hb n)) as (dy & dx & Hland & Hle); [lia|].
      exists dy, dx. split; [done|].
      assert (n ≤ dx * dx + dy * dy)
        by (apply Hb; exists dy, dx; split; [done|lia]).
      lia.
    + intros dy dx Hland. apply Hb. exists dy, dx. split; [done|lia].
Qed.

Lemma scan_window_minimum_witness :
  ∃ d, scan_window mask5 (Np.shape mask5).1 (Np.shape mask5).2 2 1 1 = Some d ∧
    (d = inf ↔ ∀ dy dx, ¬ land_at_offset mask5 2 1 1 dy dx) ∧
    (∀ n, d = sqrt_of n →
       (∃ dy dx, land_at_offset mask5 2 1 1 dy dx ∧ dx * dx + dy * dy = n) ∧
       (∀ dy dx, land_at_offset mask5 2 1 1 dy dx → n ≤ dx * dx + dy * dy)).
Proof.
  apply (scan_window_minimum mask5 2 1 1). unfold Np.rect. repeat constructor.
Defined.
